(** * Column lineage inference (all_lineage.py, single_model.py)

    A shallow embedding of the two lineage scripts of the repository, and
    of the file search of its lint wrapper (lint.py), with the
    verification of the properties stated about them.

    Conventions of the embedding.
    - A Python [dict] is an insertion-ordered association list ([odict]):
      iteration order is insertion order, assignment to an existing key
      keeps the key's position, assignment to a new key appends.
    - Text is [string]; the regular expressions are run on its list of
      characters.  Character classes are the ones Python's [re] uses on
      code points below 128; code points from 128 on are treated as
      neither word characters nor white space.
    - The interpreter's recursion limit is not modelled: recursion that
      Python would run is run with fuel, and running out of fuel stands
      for unbounded recursion. *)

From Stdlib Require Import List String Ascii Bool Arith Lia Permutation.
Import ListNotations.
Open Scope string_scope.
Open Scope list_scope.
Open Scope nat_scope.

Set Implicit Arguments.

(** ** Insertion-ordered dictionaries *)

Module Dict.

Abbreviation odict V := (list (string * V)).

Section Ops.
Variable V : Type.
#[local] Abbreviation odict := (odict V).

(** [d.get(k)] / [d[k]] *)
Fixpoint get (d : odict) (k : string) : option V :=
  match d with
  | [] => None
  | (k', v) :: d' => if String.eqb k k' then Some v else get d' k
  end.

(** [k in d] *)
Definition contains (d : odict) (k : string) : bool :=
  match get d k with Some _ => true | None => false end.

(** [d[k] = v] *)
Fixpoint set (d : odict) (k : string) (v : V) : odict :=
  match d with
  | [] => [(k, v)]
  | (k', v') :: d' =>
      if String.eqb k k' then (k', v) :: d' else (k', v') :: set d' k v
  end.

(** [if k not in d: d[k] = v] *)
Definition setdefault (d : odict) (k : string) (v : V) : odict :=
  if contains d k then d else set d k v.

(** in-place mutation of the object stored under [k]
    (as [d[k].append(x)] or [d[k][j] = x] do); no effect when [k] is
    absent, a case the callers exclude by a preceding [setdefault] *)
Definition upd (d : odict) (k : string) (f : V -> V) : odict :=
  match get d k with
  | Some v => set d k (f v)
  | None => d
  end.

Definition keys (d : odict) : list string := map fst d.
End Ops.

End Dict.

Import Dict.

(** ** Regular expressions of the heuristics

    The three patterns built by the scripts are sequences of the atoms
    below.  [re.search] answers whether some match exists, which does not
    depend on greediness, so the matcher explores the alternatives of each
    atom by backtracking over the continuation. *)

Module Re.

Definition is_digit (c : ascii) : bool :=
  let n := nat_of_ascii c in (48 <=? n) && (n <=? 57).
Definition is_upper (c : ascii) : bool :=
  let n := nat_of_ascii c in (65 <=? n) && (n <=? 90).
Definition is_lower (c : ascii) : bool :=
  let n := nat_of_ascii c in (97 <=? n) && (n <=? 122).

(** [\w] on code points below 128: digits, letters and the underscore.
    Python also counts the alphanumeric code points from 128 on, which
    this class leaves out. *)
Definition is_word (c : ascii) : bool :=
  is_digit c || is_upper c || is_lower c || (nat_of_ascii c =? 95).

(** [\s] on code points below 128: tab, newline, vertical tab, form feed,
    carriage return, the four separators 28..31 and space.  Python also
    counts the white space from 128 on (133, 160 and beyond), which this
    class leaves out. *)
Definition is_space (c : ascii) : bool :=
  let n := nat_of_ascii c in
  ((9 <=? n) && (n <=? 13)) || ((28 <=? n) && (n <=? 32)).

(** [.] without DOTALL: anything but a newline *)
Definition is_dot (c : ascii) : bool := negb (nat_of_ascii c =? 10).

Definition lower (c : ascii) : ascii :=
  if is_upper c then ascii_of_nat (nat_of_ascii c + 32) else c.

(** equality of a pattern character and a text character, under
    [re.IGNORECASE] when [ic] is set: the letters A-Z are folded, as Python
    does among code points below 128; the case pairs that involve a code
    point from 128 on are left out *)
Definition chr_eq (ic : bool) (p c : ascii) : bool :=
  if ic then Ascii.eqb (lower p) (lower c) else Ascii.eqb p c.

Inductive cclass := Space | Dot.

Definition in_class (k : cclass) (c : ascii) : bool :=
  match k with Space => is_space c | Dot => is_dot c end.

Inductive atom :=
| Lit (s : string)            (* a literal, as produced by re.escape *)
| Alt (s1 s2 : string)        (* (?:s1|s2) over two literals *)
| WordB                       (* \b *)
| Star (k : cclass)           (* k* *)
| Plus (k : cclass).          (* k+ *)

Definition regex := list atom.

(** the position in the text: the character before it, if any, and the
    rest of the text *)
Definition word_before (prev : option ascii) : bool :=
  match prev with Some c => is_word c | None => false end.
Definition word_after (s : list ascii) : bool :=
  match s with c :: _ => is_word c | [] => false end.
Definition at_boundary (prev : option ascii) (s : list ascii) : bool :=
  xorb (word_before prev) (word_after s).

(** consume the literal [p] at the position, if the text continues with it *)
Fixpoint eat (ic : bool) (p : list ascii) (prev : option ascii)
    (s : list ascii) : option (option ascii * list ascii) :=
  match p with
  | [] => Some (prev, s)
  | a :: p' =>
      match s with
      | c :: s' => if chr_eq ic a c then eat ic p' (Some c) s' else None
      | [] => None
      end
  end.

(** [k*] followed by the continuation [K] *)
Fixpoint star (K : option ascii -> list ascii -> bool) (k : cclass)
    (prev : option ascii) (s : list ascii) : bool :=
  K prev s ||
  match s with
  | c :: s' => in_class k c && star K k (Some c) s'
  | [] => false
  end.

Definition lit_then (ic : bool) (l : string)
    (K : option ascii -> list ascii -> bool)
    (prev : option ascii) (s : list ascii) : bool :=
  match eat ic (list_ascii_of_string l) prev s with
  | Some (prev', s') => K prev' s'
  | None => false
  end.

(** does the regex match starting exactly at the position? *)
Fixpoint match_here (ic : bool) (r : regex) (prev : option ascii)
    (s : list ascii) : bool :=
  match r with
  | [] => true
  | Lit l :: r' => lit_then ic l (match_here ic r') prev s
  | Alt l1 l2 :: r' =>
      lit_then ic l1 (match_here ic r') prev s
      || lit_then ic l2 (match_here ic r') prev s
  | WordB :: r' => at_boundary prev s && match_here ic r' prev s
  | Star k :: r' => star (match_here ic r') k prev s
  | Plus k :: r' =>
      match s with
      | c :: s' => in_class k c && star (match_here ic r') k (Some c) s'
      | [] => false
      end
  end.

(** try every start position from the current one on *)
Fixpoint search_from (ic : bool) (r : regex) (prev : option ascii)
    (s : list ascii) : bool :=
  match_here ic r prev s ||
  match s with
  | c :: s' => search_from ic r (Some c) s'
  | [] => false
  end.

(** [re.search(r, text)] / [re.search(r, text, re.IGNORECASE)] as a truth
    value *)
Definition search (ic : bool) (r : regex) (text : string) : bool :=
  search_from ic r None (list_ascii_of_string text).

(** [r'\b' + re.escape(col) + r'\b'] *)
Definition col_pattern (col : string) : regex :=
  [WordB; Lit col; WordB].

(** [r'\b' + re.escape(model_col) + r'\s*=.*\b' + re.escape(col) + r'\b'] *)
Definition col_usage_pattern (model_col col : string) : regex :=
  [WordB; Lit model_col; Star Space; Lit "="; Star Dot; WordB; Lit col; WordB].

(** [r'(?:select|,)\s*.*\b' + re.escape(col) + r'\b.*\s+as\s+\b'
     + re.escape(model_col) + r'\b'] *)
Definition col_in_select (model_col col : string) : regex :=
  [Alt "select" ","; Star Space; Star Dot; WordB; Lit col; WordB; Star Dot;
   Plus Space; Lit "as"; Plus Space; WordB; Lit model_col; WordB].

End Re.

(** ** The two input artifacts *)

(** A node of the manifest: [resource_type], [compiled_sql] (the empty
    string when the key is absent) and [depends_on.nodes]. *)
Record node := mk_node {
  resource_type : option string;
  compiled_sql : string;
  depends_on : list string
}.

(** A node of the catalog: [metadata.type] and the keys of [columns], in
    their order. *)
Record cat_node := mk_cat_node {
  cat_type : option string;
  columns : list string
}.

(** [column_lineage] / [all_column_lineage]:
    model -> column -> upstream model -> upstream columns *)
Definition graph := odict (odict (odict (list string))).

Definition str_in (x : string) (l : list string) : bool :=
  existsb (String.eqb x) l.

(** [node.get('metadata', {}).get('type') in ('table', 'view')] *)
Definition is_table_or_view (t : option string) : bool :=
  match t with
  | Some s => str_in s ["table"; "view"]
  | None => false
  end.

(** [node.get('resource_type') == 'model'] *)
Definition is_model (t : option string) : bool :=
  match t with
  | Some s => String.eqb s "model"
  | None => false
  end.

(** the loop that fills [model_columns] from the catalog *)
Definition model_columns_step (mc : odict (list string))
    (entry : string * cat_node) : odict (list string) :=
  let '(node_name, n) := entry in
  if is_table_or_view (cat_type n) then set mc node_name (columns n) else mc.

Definition model_columns (catalog : odict cat_node) : odict (list string) :=
  fold_left model_columns_step catalog [].

(** the disjunction of the two own-column patterns, both under
    [re.IGNORECASE] *)
Definition linked (sql model_col col : string) : bool :=
  Re.search true (Re.col_usage_pattern model_col col) sql
  || Re.search true (Re.col_in_select model_col col) sql.

(** the presence gate, case-sensitive *)
Definition present (sql col : string) : bool :=
  Re.search false (Re.col_pattern col) sql.

(** ** Edge inference, flat mode ([extract_column_lineage]) *)

Module Flat.

(** lines 81-87: the two guarded initialisations and the append *)
Definition record (g : graph) (node_name model_col dep_node col : string)
    : graph :=
  upd g node_name (fun cols =>
    upd (setdefault cols model_col []) model_col (fun ups =>
      upd (setdefault ups dep_node []) dep_node (fun l => l ++ [col]))).

(** lines 74-87: the loop over the model's own columns *)
Definition own_step (sql node_name dep_node col : string) (g : graph)
    (model_col : string) : graph :=
  if linked sql model_col col then record g node_name model_col dep_node col
  else g.

(** lines 64-87: one column of the dependency *)
Definition col_step (sql node_name : string) (model_cols : list string)
    (dep_node : string) (g : graph) (col : string) : graph :=
  if present sql col then
    fold_left (own_step sql node_name dep_node col) model_cols
      (setdefault g node_name [])
  else g.

(** lines 57-87: one dependency *)
Definition dep_step (mc : odict (list string)) (sql node_name : string)
    (model_cols : list string) (g : graph) (dep_node : string) : graph :=
  match get mc dep_node with
  | None => g
  | Some dep_cols =>
      fold_left (col_step sql node_name model_cols dep_node) dep_cols g
  end.

(** lines 40-87: one manifest node *)
Definition node_step (mc : odict (list string)) (g : graph)
    (entry : string * node) : graph :=
  let '(node_name, n) := entry in
  if is_model (resource_type n) then
    if String.eqb (compiled_sql n) "" then g
    else
      match get mc node_name with
      | None => g
      | Some model_cols =>
          fold_left (dep_step mc (compiled_sql n) node_name model_cols)
            (depends_on n) g
      end
  else g.

(** the value of [column_lineage] that the function returns *)
Definition column_lineage (nodes : odict node) (catalog : odict cat_node)
    : graph :=
  fold_left (node_step (model_columns catalog)) nodes [].

End Flat.

(** ** Edge inference, targeted mode ([extract_model_column_lineage]) *)

Module Targeted.

(** lines 94-104: the three guarded initialisations and the guarded
    append *)
Definition record (g : graph) (node_name model_col dep_node col : string)
    : graph :=
  upd (setdefault g node_name []) node_name (fun cols =>
    upd (setdefault cols model_col []) model_col (fun ups =>
      upd (setdefault ups dep_node []) dep_node (fun l =>
        if str_in col l then l else l ++ [col]))).

Definition own_step (sql node_name dep_node col : string) (g : graph)
    (model_col : string) : graph :=
  if linked sql model_col col then record g node_name model_col dep_node col
  else g.

Definition col_step (sql node_name : string) (model_cols : list string)
    (dep_node : string) (g : graph) (col : string) : graph :=
  if present sql col then
    fold_left (own_step sql node_name dep_node col) model_cols g
  else g.

Definition dep_step (mc : odict (list string)) (sql node_name : string)
    (model_cols : list string) (g : graph) (dep_node : string) : graph :=
  match get mc dep_node with
  | None => g
  | Some dep_cols =>
      fold_left (col_step sql node_name model_cols dep_node) dep_cols g
  end.

Definition node_step (mc : odict (list string)) (g : graph)
    (entry : string * node) : graph :=
  let '(node_name, n) := entry in
  if is_model (resource_type n) then
    if String.eqb (compiled_sql n) "" then g
    else
      match get mc node_name with
      | None => g
      | Some model_cols =>
          fold_left (dep_step mc (compiled_sql n) node_name model_cols)
            (depends_on n) g
      end
  else g.

(** the value of [all_column_lineage] after the first pass *)
Definition all_column_lineage (nodes : odict node) (catalog : odict cat_node)
    : graph :=
  fold_left (node_step (model_columns catalog)) nodes [].

End Targeted.

(** ** Edges of a graph *)

(** the list stored at [g[m][c][u]], empty when a key is missing *)
Definition upstream_cols (g : graph) (m c u : string) : list string :=
  match get g m with
  | Some cols =>
      match get cols c with
      | Some ups =>
          match get ups u with
          | Some l => l
          | None => []
          end
      | None => []
      end
  | None => []
  end.

(** [(m, c, u, uc)] is an entry of the graph *)
Definition edge (g : graph) (m c u uc : string) : Prop :=
  In uc (upstream_cols g m c u).

(** all entries in iteration order, as the four nested loops of the
    tabular export enumerate them *)
Definition edges (g : graph) : list (string * string * string * string) :=
  flat_map (fun '(m, cols) =>
    flat_map (fun '(c, ups) =>
      flat_map (fun '(u, l) => map (fun uc => (m, c, u, uc)) l) ups) cols) g.

(** ** Closure resolver (nested functions of [extract_model_column_lineage]) *)

(** A closure: related model -> related column -> its own closure. *)
#[warnings="-register-all"]
Inductive closure := Clo (d : odict (odict closure)).

Definition closure_dict (t : closure) : odict (odict closure) :=
  match t with Clo d => d end.

(** [model -> column -> closure]: [upstream_lineage], [downstream_lineage] *)
Definition lineage := odict (odict closure).

(** The visited set of [(model, column)] pairs.  It is kept as the list of
    the keys in the order [visited.add(key)] received them, most recent
    first: membership is the set's membership, and since every expansion
    of a pair adds its key, the list is also the log of the expansions. *)
Definition vkey := (string * string)%type.
Definition vset := list vkey.

Definition vkey_eqb (a b : vkey) : bool :=
  String.eqb (fst a) (fst b) && String.eqb (snd a) (snd b).

(** [key in visited] *)
Definition vmem (k : vkey) (v : vset) : bool := existsb (vkey_eqb k) v.

(** loops whose body may fail to return *)
Fixpoint foldM (A B : Type) (f : A -> B -> option A) (l : list B) (a : A)
    : option A :=
  match l with
  | [] => Some a
  | x :: l' =>
      match f a x with
      | Some a' => foldM f l' a'
      | None => None
      end
  end.

(** [col in result[node]] *)
Definition contains2 (V : Type) (result : odict (odict V)) (node col : string)
    : bool :=
  match get result node with
  | Some d => contains d col
  | None => false
  end.

(** [get_upstream_lineage(node_name, column_name, visited)], lines 109-131.
    The visited set is shared by all calls of one traversal, so it is
    threaded through and returned.  [None]: the fuel did not suffice. *)
Fixpoint get_upstream_lineage (fuel : nat) (g : graph)
    (node_name column_name : string) (visited : vset)
    : option (closure * vset) :=
  match fuel with
  | O => None
  | S fuel' =>
      let key := (node_name, column_name) in
      if vmem key visited then Some (Clo [], visited)
      else
        let visited := key :: visited in
        match get g node_name with
        | None => Some (Clo [], visited)
        | Some cols =>
            match get cols column_name with
            | None => Some (Clo [], visited)
            | Some ups =>
                option_map (fun st => (Clo (fst st), snd st))
                  (foldM (fun st (e : string * list string) =>
                     let '(upstream_node, upstream_columns) := e in
                     foldM (fun st upstream_col =>
                        match get_upstream_lineage fuel' g upstream_node
                                upstream_col (snd st) with
                        | Some (sub, visited') =>
                            Some (upd (fst st) upstream_node
                                    (fun d => set d upstream_col sub),
                                  visited')
                        | None => None
                        end)
                       upstream_columns
                       (setdefault (fst st) upstream_node [], snd st))
                     ups ([], visited))
            end
        end
  end.

(** [get_downstream_lineage(node_name, column_name, visited)], lines
    141-165: a scan of the whole graph at every call. *)
Fixpoint get_downstream_lineage (fuel : nat) (g : graph)
    (node_name column_name : string) (visited : vset)
    : option (closure * vset) :=
  match fuel with
  | O => None
  | S fuel' =>
      let key := (node_name, column_name) in
      if vmem key visited then Some (Clo [], visited)
      else
        let visited := key :: visited in
        option_map (fun st => (Clo (fst st), snd st))
          (foldM (fun st (e : string * odict (odict (list string))) =>
             let '(downstream_node, columns) := e in
             foldM (fun st (e : string * odict (list string)) =>
                let '(downstream_col, upstreams) := e in
                foldM (fun st (e : string * list string) =>
                   let '(upstream_node, upstream_cols) := e in
                   if String.eqb upstream_node node_name
                      && str_in column_name upstream_cols
                   then
                     let result := setdefault (fst st) downstream_node [] in
                     if contains2 result downstream_node downstream_col
                     then Some (result, snd st)
                     else
                       match get_downstream_lineage fuel' g downstream_node
                               downstream_col (snd st) with
                       | Some (sub, visited') =>
                           Some (upd result downstream_node
                                   (fun d => set d downstream_col sub),
                                 visited')
                       | None => None
                       end
                   else Some st)
                  upstreams st)
               columns st)
             g ([], visited))
  end.

(** lines 134-138 and 168-172: one closure per catalog column of the
    target, each started with a fresh visited set ([visited=None]) *)
Definition root_closures
    (closure_of : string -> string -> vset -> option (closure * vset))
    (target_node_name : string) (cols : list string) : option (odict closure) :=
  foldM (fun (d : odict closure) column =>
           match closure_of target_node_name column [] with
           | Some (t, _) => Some (set d column t)
           | None => None
           end) cols [].

Definition build_lineage
    (closure_of : string -> string -> vset -> option (closure * vset))
    (mc : odict (list string)) (target_node_name : string) : option lineage :=
  match get mc target_node_name with
  | None => Some []
  | Some cols =>
      match root_closures closure_of target_node_name cols with
      | Some d => Some [(target_node_name, d)]
      | None => None
      end
  end.

(** ** Export and the whole targeted run *)

(** [s.split('.')[-1]] *)
Fixpoint last_segment_from (acc s : string) : string :=
  match s with
  | EmptyString => acc
  | String c s' =>
      if Ascii.eqb c "."%char then last_segment_from "" s'
      else last_segment_from (acc ++ String c "") s'
  end.

Definition last_segment (s : string) : string := last_segment_from "" s.

(** lines 40-44: the first manifest node whose last segment is the target *)
Fixpoint find_target (nodes : odict node) (target_model : string)
    : option string :=
  match nodes with
  | [] => None
  | (node_name, _) :: rest =>
      if String.eqb (last_segment node_name) target_model then Some node_name
      else find_target rest target_model
  end.

Inductive cell := Str (s : string) | Int (n : nat).
Definition row := list cell.

Inductive exn := KeyError (k : string).

Inductive res (A : Type) :=
| Ok (a : A)
| Raise (e : exn)
| OutOfFuel.
Arguments Ok {A} a.
Arguments Raise {A} e.
Arguments OutOfFuel {A}.

(** Code that writes rows to an open [csv.writer] and may raise: the rows
    written so far are kept whatever the outcome. *)
Definition W (A : Type) := list row -> list row * res A.

Definition ret (A : Type) (a : A) : W A := fun rows => (rows, Ok a).

Definition bind (A B : Type) (m : W A) (f : A -> W B) : W B :=
  fun rows =>
    match m rows with
    | (rows', Ok a) => f a rows'
    | (rows', Raise e) => (rows', Raise e)
    | (rows', OutOfFuel) => (rows', OutOfFuel)
    end.

Notation "x <- m ;; k" := (bind m (fun x => k))
  (at level 61, m at next level, right associativity).
Notation "m ;;; k" := (bind m (fun _ => k))
  (at level 61, right associativity).

Definition writerow (r : row) : W unit := fun rows => (rows ++ [r], Ok tt).

Definition out_of_fuel (A : Type) : W A := fun rows => (rows, OutOfFuel).

(** [d[k]], raising [KeyError] *)
Definition lookup (V : Type) (d : odict V) (k : string) : W V :=
  fun rows =>
    match get d k with
    | Some v => (rows, Ok v)
    | None => (rows, Raise (KeyError k))
    end.

Fixpoint for_each (B : Type) (l : list B) (body : B -> W unit) : W unit :=
  match l with
  | [] => ret tt
  | x :: l' => body x ;;; for_each l' body
  end.

(** a dict is falsy when empty *)
Definition truthy (t : closure) : bool :=
  match closure_dict t with [] => false | _ :: _ => true end.

(** [flatten_upstream] (lines 245-258) and [flatten_downstream] (lines
    270-283) are the same function over [upstream_lineage] and
    [downstream_lineage] respectively, here the parameter [lin] *)
Fixpoint flatten (fuel : nat) (lin : lineage) (model column : string)
    (related : closure) : W unit :=
  match fuel with
  | O => out_of_fuel unit
  | S fuel' =>
      for_each (closure_dict related) (fun e =>
        let '(rel_model, rel_cols) := e in
        for_each (keys rel_cols) (fun rel_col =>
          writerow [Str (last_segment model); Str column;
                    Str (last_segment rel_model); Str rel_col] ;;;
          a <- lookup lin model ;;
          b <- lookup a column ;;
          c <- lookup (closure_dict b) rel_model ;;
          next <- lookup c rel_col ;;
          if truthy next then flatten fuel' lin rel_model rel_col next
          else ret tt))
  end.

(** lines 260-262 and 285-287 *)
Definition flatten_all (fuel : nat) (lin : lineage) : W unit :=
  for_each lin (fun e =>
    let '(model, cols) := e in
    for_each cols (fun e' =>
      let '(column, related) := e' in
      flatten fuel lin model column related)).

(** [process_upstream] / [process_downstream] (lines 192-204, 218-230),
    the row writers with a depth *)
Fixpoint process_related (fuel : nat) (lin : lineage)
    (model column rel_model rel_column : string) (depth : nat) : W unit :=
  match fuel with
  | O => out_of_fuel unit
  | S fuel' =>
      writerow [Str (last_segment model); Str column;
                Str (last_segment rel_model); Str rel_column; Int depth] ;;;
      a <- lookup lin model ;;
      b <- lookup a column ;;
      c <- lookup (closure_dict b) rel_model ;;
      next <- lookup c rel_column ;;
      for_each (closure_dict next) (fun e =>
        let '(next_model, next_cols) := e in
        for_each (keys next_cols) (fun next_col =>
          process_related fuel' lin rel_model rel_column next_model next_col
            (depth + 1)))
  end.

(** [write_upstream_csv] / [write_downstream_csv] (lines 187-210,
    213-236): header with a depth column, then [process_*] from every
    direct entry with the default [depth=1].  The script defines the two
    functions and never calls them. *)
Definition write_depth_csv (fuel : nat) (related_name : string)
    (lin : lineage) : W unit :=
  writerow [Str "Model"; Str "Column"; Str (related_name ++ " Model")%string;
            Str (related_name ++ " Column")%string; Str "Depth"] ;;;
  for_each lin (fun e =>
    let '(model, cols) := e in
    for_each cols (fun e' =>
      let '(column, related) := e' in
      for_each (closure_dict related) (fun e'' =>
        let '(rel_model, rel_cols) := e'' in
        for_each (keys rel_cols) (fun rel_column =>
          process_related fuel lin model column rel_model rel_column 1)))).

(** lines 239-262 and 264-287: the header and the flattened rows *)
Definition write_flat_csv (fuel : nat) (related_name : string)
    (lin : lineage) : W unit :=
  writerow [Str "Model"; Str "Column"; Str (related_name ++ " Model")%string;
            Str (related_name ++ " Column")%string] ;;;
  flatten_all fuel lin.

(** what a run leaves behind *)
Inductive content :=
| Json (l : lineage)
| Csv (rows : list row).

Record run := mk_run {
  printed : list string;
  files : list (string * content);
  result : res (odict lineage)
}.

(** [path.endswith('/')] *)
Fixpoint ends_with_sep (path : string) : bool :=
  match path with
  | EmptyString => false
  | String c EmptyString => Ascii.eqb c "/"%char
  | String _ rest => ends_with_sep rest
  end.

(** [os.path.join(output_dir, name)] of [posixpath]: an absolute [name]
    replaces the directory, an empty directory or one that ends with the
    separator is extended by [name] alone, any other by the separator and
    [name] *)
Definition path_join (output_dir name : string) : string :=
  match name with
  | String "/"%char _ => name
  | _ =>
      if String.eqb output_dir "" || ends_with_sep output_dir
      then output_dir ++ name
      else output_dir ++ "/" ++ name
  end.

(** lines 174-295 *)
Definition export (fuel : nat) (output_dir model_name : string)
    (upstream_lineage downstream_lineage : lineage) : run :=
  let upstream_json_path :=
    path_join output_dir (model_name ++ "_upstream_lineage.json") in
  let downstream_json_path :=
    path_join output_dir (model_name ++ "_downstream_lineage.json") in
  let upstream_csv_path :=
    path_join output_dir (model_name ++ "_upstream_lineage.csv") in
  let downstream_csv_path :=
    path_join output_dir (model_name ++ "_downstream_lineage.csv") in
  let jsons := [(upstream_json_path, Json upstream_lineage);
                (downstream_json_path, Json downstream_lineage)] in
  match write_flat_csv fuel "Upstream" upstream_lineage [] with
  | (up_rows, Ok _) =>
      match write_flat_csv fuel "Downstream" downstream_lineage [] with
      | (down_rows, Ok _) =>
          mk_run
            [("Upstream lineage exported to " ++ upstream_json_path
              ++ " and " ++ upstream_csv_path)%string;
             ("Downstream lineage exported to " ++ downstream_json_path
              ++ " and " ++ downstream_csv_path)%string]
            (jsons ++ [(upstream_csv_path, Csv up_rows);
                       (downstream_csv_path, Csv down_rows)])
            (Ok [("upstream", upstream_lineage);
                 ("downstream", downstream_lineage)])
      | (down_rows, Raise e) =>
          mk_run [] (jsons ++ [(upstream_csv_path, Csv up_rows);
                               (downstream_csv_path, Csv down_rows)])
            (Raise e)
      | (down_rows, OutOfFuel) =>
          mk_run [] (jsons ++ [(upstream_csv_path, Csv up_rows);
                               (downstream_csv_path, Csv down_rows)])
            OutOfFuel
      end
  | (up_rows, Raise e) =>
      mk_run [] (jsons ++ [(upstream_csv_path, Csv up_rows)]) (Raise e)
  | (up_rows, OutOfFuel) =>
      mk_run [] (jsons ++ [(upstream_csv_path, Csv up_rows)]) OutOfFuel
  end.

(** [if target_model:] on an optional string *)
Definition requested (target_model : option string) : option string :=
  match target_model with
  | Some t => if String.eqb t "" then None else Some t
  | None => None
  end.

(** [extract_model_column_lineage(manifest, catalog, target_model,
    output_dir)], on the loaded [nodes] of the two artifacts *)
Definition extract_model_column_lineage (fuel : nat) (nodes : odict node)
    (catalog : odict cat_node) (target_model : option string)
    (output_dir : string) : run :=
  let mc := model_columns catalog in
  match requested target_model with
  | None =>
      let _all := Targeted.all_column_lineage nodes catalog in
      export fuel output_dir "all_models" [] []
  | Some t =>
      match find_target nodes t with
      | None =>
          mk_run [("Model '" ++ t ++ "' not found in the manifest.")%string] []
            (Ok [])
      | Some target_node_name =>
          let g := Targeted.all_column_lineage nodes catalog in
          match build_lineage (get_upstream_lineage fuel g) mc
                  target_node_name with
          | None => mk_run [] [] OutOfFuel
          | Some upstream_lineage =>
              match build_lineage (get_downstream_lineage fuel g) mc
                      target_node_name with
              | None => mk_run [] [] OutOfFuel
              | Some downstream_lineage =>
                  export fuel output_dir t upstream_lineage
                    downstream_lineage
              end
          end
      end
  end.

(** ** Export of the flat mode ([extract_column_lineage], lines 94-141) *)

(** lines 100-109: one row per entry of the graph *)
Definition upstream_rows (g : graph) : list row :=
  flat_map (fun e : string * odict (odict (list string)) =>
    let '(model, cols) := e in
    flat_map (fun e1 : string * odict (list string) =>
      let '(column, upstreams) := e1 in
      flat_map (fun e2 : string * list string =>
        let '(upstream_model, upstream_columns) := e2 in
        map (fun upstream_column =>
               [Str (last_segment model); Str column;
                Str (last_segment upstream_model); Str upstream_column])
          upstream_columns) upstreams) cols) g.

(** [downstream_lineage]: upstream model -> upstream column ->
    list of (model, column) *)
Definition inverse := odict (odict (list (string * string))).

(** lines 123-129 *)
Definition invert_record (dl : inverse)
    (model column upstream_model upstream_column : string) : inverse :=
  upd (setdefault dl upstream_model []) upstream_model (fun cols =>
    upd (setdefault cols upstream_column []) upstream_column (fun l =>
      l ++ [(model, column)])).

(** lines 118-129: the inversion of the graph *)
Definition invert (g : graph) : inverse :=
  fold_left (fun dl (e : string * odict (odict (list string))) =>
    let '(model, cols) := e in
    fold_left (fun dl (e1 : string * odict (list string)) =>
      let '(column, upstreams) := e1 in
      fold_left (fun dl (e2 : string * list string) =>
        let '(upstream_model, upstream_columns) := e2 in
        fold_left (fun dl upstream_column =>
                     invert_record dl model column upstream_model
                       upstream_column)
          upstream_columns dl) upstreams dl) cols dl) g [].

(** lines 132-141: one row per pair stored in the inversion *)
Definition inverse_rows (dl : inverse) : list row :=
  flat_map (fun e : string * odict (list (string * string)) =>
    let '(model, cols) := e in
    flat_map (fun e1 : string * list (string * string) =>
      let '(column, downstreams) := e1 in
      map (fun downstream : string * string =>
             let '(downstream_model, downstream_column) := downstream in
             [Str (last_segment model); Str column;
              Str (last_segment downstream_model); Str downstream_column])
        downstreams) cols) dl.

Definition downstream_rows (g : graph) : list row := inverse_rows (invert g).

(** what a flat run leaves behind and returns *)
Record flat_run := mk_flat_run {
  column_lineage_json : graph;
  column_lineage_csv : list row;
  downstream_lineage_csv : list row;
  flat_printed : list string;
  flat_result : graph
}.

(** [extract_column_lineage(manifest, catalog, output_dir)], on the loaded
    [nodes] of the two artifacts *)
Definition extract_column_lineage (nodes : odict node)
    (catalog : odict cat_node) (output_dir : string) : flat_run :=
  let column_lineage := Flat.column_lineage nodes catalog in
  mk_flat_run column_lineage
    ([Str "Model"; Str "Column"; Str "Upstream Model"; Str "Upstream Column"]
     :: upstream_rows column_lineage)
    ([Str "Model"; Str "Column"; Str "Downstream Model";
      Str "Downstream Column"]
     :: downstream_rows column_lineage)
    [("Column lineage exported to "
      ++ path_join output_dir "column_lineage.json")%string;
     ("CSV lineage exported to "
      ++ path_join output_dir "column_lineage.csv")%string;
     ("Downstream lineage exported to "
      ++ path_join output_dir "downstream_lineage.csv")%string]
    column_lineage.

(** ** The file search of the lint wrapper ([find_sql_file], lint.py) *)

Module Lint.

(** does [s] start with [p]? *)
Fixpoint starts_with (p s : string) : bool :=
  match p with
  | EmptyString => true
  | String a p' =>
      match s with
      | String b s' => Ascii.eqb a b && starts_with p' s'
      | EmptyString => false
      end
  end.

(** [s.replace(old, new)] for a non-empty [old]: the occurrences are
    replaced from the left and do not overlap; [skip] counts the
    characters of a matched occurrence that are still to be dropped *)
Fixpoint replace_from (skip : nat) (old new s : string) : string :=
  match s with
  | EmptyString => EmptyString
  | String c s' =>
      match skip with
      | S k => replace_from k old new s'
      | O =>
          if starts_with old s
          then (new ++ replace_from (String.length old - 1) old new s')%string
          else String c (replace_from 0 old new s')
      end
  end.

Definition replace (old new s : string) : string := replace_from 0 old new s.

(** lines 17-20 for one directory: the first pattern that names a file *)
Fixpoint first_match (patterns files : list string) : option string :=
  match patterns with
  | [] => None
  | pattern :: rest =>
      if str_in pattern files then Some pattern
      else first_match rest files
  end.

(** [find_sql_file(filename)] over the listing [walk] that
    [os.walk('.')] yields, as (root, files) in its order; the result is
    the directory and the file whose joined absolute path is returned *)
Fixpoint search (patterns : list string) (walk : list (string * list string))
    : option (string * string) :=
  match walk with
  | [] => None
  | (root, files) :: rest =>
      match first_match patterns files with
      | Some file => Some (root, file)
      | None => search patterns rest
      end
  end.

Definition find_sql_file (walk : list (string * list string))
    (filename : string) : option (string * string) :=
  let base_name := replace ".sql" "" filename in
  search [(base_name ++ ".sql")%string; base_name] walk.

End Lint.

(** ** Notions used by the statements *)

(** the pair occurs as a key somewhere in the nested closure *)
Fixpoint appearsb (m c : string) (t : closure) : bool :=
  match t with
  | Clo d =>
      existsb (fun e : string * odict closure =>
        existsb (fun e' : string * closure =>
          (String.eqb (fst e) m && String.eqb (fst e') c)
          || appearsb m c (snd e')) (snd e)) d
  end.

(** the upstream side and the downstream side of every entry *)
Definition up_pairs (g : graph) : list vkey :=
  map (fun e => match e with (_, _, u, uc) => (u, uc) end) (edges g).

Definition down_pairs (g : graph) : list vkey :=
  flat_map (fun e : string * odict (odict (list string)) =>
    map (fun e' : string * odict (list string) => (fst e, fst e')) (snd e)) g.

(** pairs of [U] that a traversal may still expand *)
Definition unvisited (U : list vkey) (v : vset) : nat :=
  List.length (filter (fun k => negb (vmem k v)) U).

(** fuel that suffices for a whole traversal from any root *)
Definition upstream_fuel (g : graph) : nat :=
  S (S (List.length (up_pairs g))).

Definition downstream_fuel (g : graph) : nat :=
  S (S (List.length (down_pairs g))).

(** value stored under a key, a default when absent *)
Definition getd (V : Type) (dflt : V) (d : odict V) (k : string) : V :=
  match get d k with Some v => v | None => dflt end.

(** where an entry comes from: the manifest node [m] is a model with
    compiled text [sql] and dependency [u], both have columns in
    [model_columns], [uc] passes the presence gate and one of the two
    own-column patterns links [c] to [uc] *)
Definition provenance (nodes : odict node) (catalog : odict cat_node)
    (m c u uc : string) : Prop :=
  exists n mcols ucols,
    In (m, n) nodes /\
    is_model (resource_type n) = true /\
    compiled_sql n <> "" /\
    In u (depends_on n) /\
    get (model_columns catalog) m = Some mcols /\ In c mcols /\
    get (model_columns catalog) u = Some ucols /\ In uc ucols /\
    present (compiled_sql n) uc = true /\
    linked (compiled_sql n) c uc = true.

(** [x] has a catalog entry of kind table or view that lists [col] *)
Definition catalog_column (catalog : odict cat_node) (x col : string) : Prop :=
  exists cn,
    In (x, cn) catalog /\ is_table_or_view (cat_type cn) = true /\
    In col (columns cn).

(** [u] is a declared dependency of the manifest node [m] *)
Definition declared_dependency (nodes : odict node) (m u : string) : Prop :=
  exists n, In (m, n) nodes /\ In u (depends_on n).

(** [t] is what the upstream (downstream) traversal from the root
    [(m, c)], started with an empty visited set, returns with the final
    visited set [v], whatever fuel at least the bound it is given *)
Definition upstream_closure (g : graph) (m c : string) (t : closure)
    (v : vset) : Prop :=
  forall fuel, upstream_fuel g <= fuel ->
    get_upstream_lineage fuel g m c [] = Some (t, v).

Definition downstream_closure (g : graph) (m c : string) (t : closure)
    (v : vset) : Prop :=
  forall fuel, downstream_fuel g <= fuel ->
    get_downstream_lineage fuel g m c [] = Some (t, v).

(** the visited set [v'] extends [v] without repeating a key *)
Definition extends (v v' : vset) : Prop :=
  incl v v' /\ (NoDup v -> NoDup v').

(** every (model, column) key of [r] is a key of [r'] *)
Definition grows (V : Type) (r r' : odict (odict V)) : Prop :=
  forall a b, contains2 r a b = true -> contains2 r' a b = true.

(** tabular files among the files of a run *)
Definition is_csv (f : string * content) : bool :=
  match snd f with Csv _ => true | Json _ => false end.

Definition csv_count (r : run) : nat := List.length (filter is_csv (files r)).

(** a model key with an empty column map counts as absent *)
Definition strip (o : option (odict (odict (list string))))
    : option (odict (odict (list string))) :=
  match o with
  | Some [] => None
  | _ => o
  end.

(** the targeted graph [T] has, under every model key, the column map
    that the flat graph [F] has there, and no key where that map is empty *)
Definition same_maps (F T : graph) : Prop :=
  forall m, get T m = strip (get F m).

(** the two graphs have the same entries *)
Definition same_edges (F T : graph) : Prop :=
  forall m c u uc, edge T m c u uc <-> edge F m c u uc.

(** every key of the nested closure [t] under the pair [(m, c)] is
    related to [(m, c)] by [R], and so on down the tree *)
#[warnings="-register-all"]
Inductive within (R : string -> string -> string -> string -> Prop)
    : string -> string -> closure -> Prop :=
| within_intro m c d :
    (forall u cols uc sub, In (u, cols) d -> In (uc, sub) cols ->
       R m c u uc /\ within R u uc sub) ->
    within R m c (Clo d).

(** [(u, uc)] is recorded as upstream of [(m, c)], and the converse *)
Definition feeds (g : graph) (m c u uc : string) : Prop :=
  In (m, c, u, uc) (edges g).

Definition fed_by (g : graph) (m c dm dc : string) : Prop :=
  In (dm, dc, m, c) (edges g).

(** the invariant of the result under construction *)
Definition all_within (R : string -> string -> string -> string -> Prop)
    (m c : string) (r : odict (odict closure)) : Prop :=
  forall u cols uc sub, In (u, cols) r -> In (uc, sub) cols ->
    R m c u uc /\ within R u uc sub.

(** the string has a dot in it *)
Fixpoint has_dot (s : string) : bool :=
  match s with
  | EmptyString => false
  | String c s' => Ascii.eqb c "."%char || has_dot s'
  end.

(** the run that exports two empty lineages under the name [model_name] *)
Definition empty_run (output_dir model_name : string) : run :=
  let up_json := path_join output_dir (model_name ++ "_upstream_lineage.json") in
  let down_json :=
    path_join output_dir (model_name ++ "_downstream_lineage.json") in
  let up_csv := path_join output_dir (model_name ++ "_upstream_lineage.csv") in
  let down_csv :=
    path_join output_dir (model_name ++ "_downstream_lineage.csv") in
  mk_run
    [("Upstream lineage exported to " ++ up_json ++ " and " ++ up_csv)%string;
     ("Downstream lineage exported to " ++ down_json ++ " and "
      ++ down_csv)%string]
    [(up_json, Json []);
     (down_json, Json []);
     (up_csv, Csv [[Str "Model"; Str "Column"; Str "Upstream Model";
                    Str "Upstream Column"]]);
     (down_csv, Csv [[Str "Model"; Str "Column"; Str "Downstream Model";
                      Str "Downstream Column"]])]
    (Ok [("upstream", []); ("downstream", [])]).

(** the row of the upstream table and the row of the downstream table
    that an entry of the graph stands for *)
Definition edge_row (e : string * string * string * string) : row :=
  match e with
  | (m, c, u, uc) =>
      [Str (last_segment m); Str c; Str (last_segment u); Str uc]
  end.

Definition inverted_row (e : string * string * string * string) : row :=
  match e with
  | (m, c, u, uc) =>
      [Str (last_segment u); Str uc; Str (last_segment m); Str c]
  end.

(** [setdefault] followed by an in-place update, in one pass *)
Fixpoint ensure_upd (V : Type) (d : odict V) (k : string) (dflt : V)
    (f : V -> V) : odict V :=
  match d with
  | [] => [(k, f dflt)]
  | (k', v) :: d' =>
      if String.eqb k k' then (k', f v) :: d'
      else (k', v) :: ensure_upd d' k dflt f
  end.

(** the pairs that [R] relates to [(m, c)] in one step or more *)
Inductive reaches (R : string -> string -> string -> string -> Prop)
    (m c : string) : string -> string -> Prop :=
| reaches_step u uc : R m c u uc -> reaches R m c u uc
| reaches_more p pc u uc :
    reaches R m c p pc -> R p pc u uc -> reaches R m c u uc.

(** no upstream map of the graph has a key twice and no list of upstream
    columns has a column twice *)
Definition tidy (g : graph) : Prop :=
  forall m c cols ups,
    get g m = Some cols -> get cols c = Some ups ->
    NoDup (keys ups) /\ forall u l, In (u, l) ups -> NoDup l.

(** what a traversal from [(n, c)] with visited set [v] owes when it
    returns [t] and [v']: nothing leaves the visited set, the root is in
    it, and for every pair that entered it all the pairs [R] relates to
    it are in the closure and in the set *)
Definition covers (R : string -> string -> string -> string -> Prop)
    (v : vset) (n c : string) (t : closure) (v' : vset) : Prop :=
  incl v v' /\ In (n, c) v' /\
  forall pm pc, In (pm, pc) v' -> ~ In (pm, pc) v ->
    forall u uc, R pm pc u uc -> appearsb u uc t = true /\ In (u, uc) v'.

(** the same, for the result [r] and the set [w] of a loop that started
    with the set [w0] *)
Definition covering (R : string -> string -> string -> string -> Prop)
    (w0 : vset) (r : odict (odict closure)) (w : vset) : Prop :=
  incl w0 w /\
  forall pm pc, In (pm, pc) w -> ~ In (pm, pc) w0 ->
    forall u uc, R pm pc u uc ->
      appearsb u uc (Clo r) = true /\ In (u, uc) w.

(** the bodies of the two loops of [get_upstream_lineage], over the
    recursive call [rec] *)
Definition up_inner (rec : string -> string -> vset -> option (closure * vset))
    (upstream_node : string) (st : odict (odict closure) * vset)
    (upstream_col : string) : option (odict (odict closure) * vset) :=
  match rec upstream_node upstream_col (snd st) with
  | Some (sub, visited') =>
      Some (upd (fst st) upstream_node (fun d => set d upstream_col sub),
            visited')
  | None => None
  end.

Definition up_outer (rec : string -> string -> vset -> option (closure * vset))
    (st : odict (odict closure) * vset) (e : string * list string)
    : option (odict (odict closure) * vset) :=
  let '(upstream_node, upstream_columns) := e in
  foldM (up_inner rec upstream_node) upstream_columns
    (setdefault (fst st) upstream_node [], snd st).

(** no upstream map stored in the graph has a key twice *)
Definition upstream_keys_unique (g : graph) : Prop :=
  forall m cols c ups,
    In (m, cols) g -> In (c, ups) cols -> NoDup (keys ups).

(** the bodies of the three loops of [get_downstream_lineage], over the
    recursive call [rec] *)
Definition down_step
    (rec : string -> string -> vset -> option (closure * vset))
    (node_name column_name downstream_node downstream_col : string)
    (st : odict (odict closure) * vset) (e : string * list string)
    : option (odict (odict closure) * vset) :=
  let '(upstream_node, upstream_cols) := e in
  if String.eqb upstream_node node_name && str_in column_name upstream_cols
  then
    let result := setdefault (fst st) downstream_node [] in
    if contains2 result downstream_node downstream_col
    then Some (result, snd st)
    else
      match rec downstream_node downstream_col (snd st) with
      | Some (sub, visited') =>
          Some (upd result downstream_node
                  (fun d => set d downstream_col sub),
                visited')
      | None => None
      end
  else Some st.

Definition down_cols
    (rec : string -> string -> vset -> option (closure * vset))
    (node_name column_name downstream_node : string)
    (st : odict (odict closure) * vset) (e : string * odict (list string))
    : option (odict (odict closure) * vset) :=
  let '(downstream_col, upstreams) := e in
  foldM (down_step rec node_name column_name downstream_node downstream_col)
    upstreams st.

Definition down_nodes
    (rec : string -> string -> vset -> option (closure * vset))
    (node_name column_name : string)
    (st : odict (odict closure) * vset)
    (e : string * odict (odict (list string)))
    : option (odict (odict closure) * vset) :=
  let '(downstream_node, columns) := e in
  foldM (down_cols rec node_name column_name downstream_node) columns st.

(** the invariant of the downstream loops: the result covers what entered
    the visited set, and every key of the result is in the visited set *)
Definition down_inv (R : string -> string -> string -> string -> Prop)
    (w0 : vset) (st : odict (odict closure) * vset) : Prop :=
  covering R w0 (fst st) (snd st) /\
  forall a b, contains2 (fst st) a b = true -> In (a, b) (snd st).

(** number of nodes of a closure *)
Fixpoint csize (t : closure) : nat :=
  match t with
  | Clo d =>
      S (list_sum (map (fun e : string * odict closure =>
           list_sum (map (fun e' : string * closure => csize (snd e'))
                       (snd e))) d))
  end.

(** no model and no column map of the graph has a key twice *)
Definition model_keys_unique (g : graph) : Prop :=
  NoDup (keys g) /\ forall m cols, In (m, cols) g -> NoDup (keys cols).

(** one row per direct relative in the closure of [(model, column)] *)
Definition relative_rows (model column : string) (related : closure)
    : list row :=
  flat_map (fun e : string * odict closure =>
    map (fun rel_col =>
           [Str (last_segment model); Str column;
            Str (last_segment (fst e)); Str rel_col])
      (keys (snd e))) (closure_dict related).

(** ** Inputs of the scenarios *)

Module Scenario.

(** unaliased passthrough *)
Definition passthrough_nodes : odict node :=
  [("order_summary",
    mk_node (Some "model")
      "select order_id, sum(amount) as total from orders group by order_id"
      ["orders"])].

Definition passthrough_catalog : odict cat_node :=
  [("orders", mk_cat_node (Some "table") ["order_id"; "customer_id"]);
   ("order_summary", mk_cat_node (Some "table") ["order_id"; "total"])].

(** aliasing *)
Definition aliasing_nodes : odict node :=
  [("order_summary",
    mk_node (Some "model")
      "select id as order_id, amount as total from raw_orders"
      ["raw_orders"])].

Definition aliasing_catalog : odict cat_node :=
  [("raw_orders", mk_cat_node (Some "table") ["id"; "amount"]);
   ("order_summary", mk_cat_node (Some "table") ["order_id"; "total"])].

(** a dependency list that names the same upstream model twice *)
Definition repeated_dep_nodes : odict node :=
  [("order_summary",
    mk_node (Some "model") "select id as order_id from raw_orders"
      ["raw_orders"; "raw_orders"])].

Definition repeated_dep_catalog : odict cat_node :=
  [("raw_orders", mk_cat_node (Some "table") ["id"]);
   ("order_summary", mk_cat_node (Some "table") ["order_id"])].

(** an upstream column that is present in the text and linked to nothing *)
Definition unlinked_nodes : odict node :=
  [("order_summary",
    mk_node (Some "model") "select order_id from orders" ["orders"])].

Definition unlinked_catalog : odict cat_node :=
  [("orders", mk_cat_node (Some "table") ["order_id"]);
   ("order_summary", mk_cat_node (Some "table") ["order_id"])].

(** a chain of two hops: t.c <- u.x <- v.y *)
Definition chain_nodes : odict node :=
  [("proj.t", mk_node (Some "model") "select x as c from u" ["proj.u"]);
   ("proj.u", mk_node (Some "model") "select y as x from v" ["proj.v"])].

Definition chain_catalog : odict cat_node :=
  [("proj.t", mk_cat_node (Some "table") ["c"]);
   ("proj.u", mk_cat_node (Some "table") ["x"]);
   ("proj.v", mk_cat_node (Some "table") ["y"])].

(** a cyclic graph: A.x <- B.y <- A.x *)
Definition cyclic_graph : graph :=
  [("A", [("x", [("B", ["y"])])]);
   ("B", [("y", [("A", ["x"])])])].

End Scenario.

(** * Facts about dictionaries *)

Section DictFacts.
Variable V : Type.
Implicit Types (d : odict V) (k : string) (v : V).

Lemma get_set_same d k v : get (set d k v) k = Some v.
Proof.
  induction d as [|[k' v'] d IH]; simpl.
  - now rewrite String.eqb_refl.
  - destruct (String.eqb_spec k k') as [->|Hne]; simpl.
    + now rewrite String.eqb_refl.
    + destruct (String.eqb_spec k k'); [contradiction|exact IH].
Qed.

Lemma get_set_other d k k' v : k' <> k -> get (set d k v) k' = get d k'.
Proof.
  intros Hne. induction d as [|[k0 v0] d IH]; simpl.
  - destruct (String.eqb_spec k' k); [contradiction|reflexivity].
  - destruct (String.eqb_spec k k0) as [->|Hk]; simpl.
    + destruct (String.eqb_spec k' k0); [contradiction|reflexivity].
    + destruct (String.eqb_spec k' k0); [reflexivity|exact IH].
Qed.

Lemma get_set d k k' v :
  get (set d k v) k' = if String.eqb k' k then Some v else get d k'.
Proof.
  destruct (String.eqb_spec k' k) as [->|Hne].
  - apply get_set_same.
  - now apply get_set_other.
Qed.

Lemma get_setdefault d k k' v :
  get (setdefault d k v) k' =
  if String.eqb k' k
  then Some (match get d k with Some x => x | None => v end)
  else get d k'.
Proof.
  unfold setdefault, contains.
  destruct (String.eqb_spec k' k) as [->|Hne].
  - destruct (get d k) eqn:E; [exact E|apply get_set_same].
  - destruct (get d k); [reflexivity|now apply get_set_other].
Qed.

Lemma get_upd d k k' (f : V -> V) :
  get (upd d k f) k' =
  if String.eqb k' k then option_map f (get d k) else get d k'.
Proof.
  unfold upd. destruct (String.eqb_spec k' k) as [->|Hne].
  - destruct (get d k) eqn:E; simpl; [apply get_set_same|exact E].
  - destruct (get d k); [now apply get_set_other|reflexivity].
Qed.

Lemma get_In d k v : get d k = Some v -> In (k, v) d.
Proof.
  induction d as [|[k' v'] d IH]; simpl; [discriminate|].
  destruct (String.eqb_spec k k') as [->|Hne].
  - intros [= ->]. now left.
  - intros H. right. now apply IH.
Qed.

Lemma contains_setdefault_same d k v : contains (setdefault d k v) k = true.
Proof.
  unfold contains. now rewrite get_setdefault, String.eqb_refl.
Qed.

Lemma contains_upd d k k' (f : V -> V) :
  contains (upd d k f) k' = contains d k'.
Proof.
  unfold contains. rewrite get_upd.
  destruct (String.eqb_spec k' k) as [->|Hne]; [|reflexivity].
  destruct (get d k); reflexivity.
Qed.

Lemma upd_ext d k (f f' : V -> V) :
  (forall v, get d k = Some v -> f v = f' v) -> upd d k f = upd d k f'.
Proof.
  intros H. unfold upd. destruct (get d k) as [v|]; [|reflexivity].
  now rewrite (H v).
Qed.

Lemma upd_nonempty d k (f : V -> V) :
  contains d k = true -> upd d k f <> [].
Proof.
  unfold contains. intros Hc Hnil.
  assert (H : get (upd d k f) k = None) by now rewrite Hnil.
  rewrite get_upd, String.eqb_refl in H.
  destruct (get d k); discriminate.
Qed.
End DictFacts.

Lemma str_in_In x l : str_in x l = true <-> In x l.
Proof.
  unfold str_in. rewrite existsb_exists. split.
  - intros [y [Hy Heq]]. apply String.eqb_eq in Heq. now subst.
  - intros H. exists x. split; [assumption|apply String.eqb_refl].
Qed.

(** invariants of a [for] loop *)
Lemma fold_left_inv (A B : Type) (P : A -> Prop) (f : A -> B -> A)
    (l : list B) (a : A) :
  P a -> (forall a x, In x l -> P a -> P (f a x)) -> P (fold_left f l a).
Proof.
  revert a. induction l as [|x l IH]; simpl; intros a Ha Hstep; [assumption|].
  apply IH.
  - apply Hstep; [now left|assumption].
  - intros a' y Hy. apply Hstep. now right.
Qed.

(** * Entries after one recording step *)

Lemma upstream_cols_getd g m c u :
  upstream_cols g m c u =
  getd (V:=list string) []
    (getd (V:=odict (list string)) []
       (getd (V:=odict (odict (list string))) [] g m) c) u.
Proof.
  unfold upstream_cols, getd.
  destruct (get g m) as [cols|]; simpl; [|reflexivity].
  destruct (get cols c) as [ups|]; reflexivity.
Qed.

(** [setdefault] then in-place update, read back *)
Lemma getd_upd_setdefault (V : Type) (dflt : V) (d : odict V) k k'
    (f : V -> V) :
  getd dflt (upd (setdefault d k dflt) k f) k' =
  if String.eqb k' k then f (getd dflt d k) else getd dflt d k'.
Proof.
  unfold getd. rewrite get_upd, !get_setdefault.
  destruct (String.eqb_spec k' k) as [->|Hne].
  - rewrite String.eqb_refl. simpl. destruct (get d k); reflexivity.
  - reflexivity.
Qed.

Lemma targeted_record_cols g n mc d col m c u :
  upstream_cols (Targeted.record g n mc d col) m c u =
  if String.eqb m n && String.eqb c mc && String.eqb u d
  then (let l := upstream_cols g m c u in
        if str_in col l then l else l ++ [col])
  else upstream_cols g m c u.
Proof.
  rewrite !upstream_cols_getd. unfold Targeted.record.
  rewrite getd_upd_setdefault.
  destruct (String.eqb_spec m n) as [->|Hm]; simpl; [|reflexivity].
  rewrite getd_upd_setdefault.
  destruct (String.eqb_spec c mc) as [->|Hc]; simpl; [|reflexivity].
  rewrite getd_upd_setdefault.
  destruct (String.eqb_spec u d) as [->|Hu]; reflexivity.
Qed.

Lemma getd_upd (V : Type) (dflt : V) (d : odict V) k k' (f : V -> V) :
  getd dflt (upd d k f) k' =
  if String.eqb k' k
  then match get d k with Some v => f v | None => dflt end
  else getd dflt d k'.
Proof.
  unfold getd. rewrite get_upd.
  destruct (String.eqb_spec k' k); [|reflexivity].
  destruct (get d k); reflexivity.
Qed.

Lemma flat_record_cols g n mc d col m c u :
  upstream_cols (Flat.record g n mc d col) m c u =
  if contains g n && String.eqb m n && String.eqb c mc && String.eqb u d
  then upstream_cols g m c u ++ [col]
  else upstream_cols g m c u.
Proof.
  rewrite !upstream_cols_getd. unfold Flat.record, contains.
  rewrite getd_upd.
  destruct (String.eqb_spec m n) as [->|Hm]; simpl.
  - assert (Hg : getd (V:=odict (odict (list string))) [] g n =
                 match get g n with Some v => v | None => [] end)
      by reflexivity.
    rewrite Hg. clear Hg.
    destruct (get g n) as [cols|]; simpl; [|reflexivity].
    rewrite getd_upd_setdefault.
    destruct (String.eqb_spec c mc) as [->|Hc]; simpl; [|reflexivity].
    rewrite getd_upd_setdefault.
    destruct (String.eqb_spec u d) as [->|Hu]; reflexivity.
  - now rewrite andb_false_r.
Qed.

(** * Where the entries of the inferred graph come from *)

Lemma model_columns_sound catalog x cols :
  get (model_columns catalog) x = Some cols ->
  exists cn, In (x, cn) catalog /\ is_table_or_view (cat_type cn) = true /\
             columns cn = cols.
Proof.
  unfold model_columns. revert x cols.
  apply fold_left_inv with
    (P := fun mc => forall x cols, get mc x = Some cols ->
            exists cn, In (x, cn) catalog /\
                       is_table_or_view (cat_type cn) = true /\
                       columns cn = cols).
  - intros x cols H. discriminate.
  - intros mc [name cn] Hin IH x cols. unfold model_columns_step.
    destruct (is_table_or_view (cat_type cn)) eqn:Ek; [|apply IH].
    rewrite get_set. destruct (String.eqb_spec x name) as [->|Hne].
    + intros [= <-]. now exists cn.
    + apply IH.
Qed.

Lemma edge_empty m c u uc : ~ edge [] m c u uc.
Proof. unfold edge, upstream_cols. simpl. tauto. Qed.

Lemma upstream_cols_setdefault g n m c u :
  upstream_cols (setdefault g n []) m c u = upstream_cols g m c u.
Proof.
  unfold upstream_cols. rewrite get_setdefault.
  destruct (String.eqb_spec m n) as [->|Hne]; [|reflexivity].
  destruct (get g n); reflexivity.
Qed.

Lemma edge_flat_record g n mc d col m c u uc :
  edge (Flat.record g n mc d col) m c u uc ->
  edge g m c u uc \/ (m, c, u, uc) = (n, mc, d, col).
Proof.
  unfold edge. rewrite flat_record_cols.
  destruct (contains g n); simpl; [|now left].
  destruct (String.eqb_spec m n) as [->|]; simpl; [|now left].
  destruct (String.eqb_spec c mc) as [->|]; simpl; [|now left].
  destruct (String.eqb_spec u d) as [->|]; simpl; [|now left].
  rewrite in_app_iff. simpl. intros [H|[->|[]]]; [now left|now right].
Qed.

Lemma edge_targeted_record g n mc d col m c u uc :
  edge (Targeted.record g n mc d col) m c u uc ->
  edge g m c u uc \/ (m, c, u, uc) = (n, mc, d, col).
Proof.
  unfold edge. rewrite targeted_record_cols.
  destruct (String.eqb_spec m n) as [->|]; simpl; [|now left].
  destruct (String.eqb_spec c mc) as [->|]; simpl; [|now left].
  destruct (String.eqb_spec u d) as [->|]; simpl; [|now left].
  destruct (str_in col (upstream_cols g n mc d)); [now left|].
  rewrite in_app_iff. simpl. intros [H|[->|[]]]; [now left|now right].
Qed.

Section Provenance.
Variable nodes : odict node.
Variable catalog : odict cat_node.

Let sourced (g : graph) : Prop :=
  forall m c u uc, edge g m c u uc -> provenance nodes catalog m c u uc.

Lemma flat_sourced : sourced (Flat.column_lineage nodes catalog).
Proof.
  unfold Flat.column_lineage.
  apply fold_left_inv; [intros m c u uc H; now apply edge_empty in H|].
  intros g [name n] Hn Hg. unfold Flat.node_step.
  destruct (is_model (resource_type n)) eqn:Ekind; [|exact Hg].
  destruct (String.eqb_spec (compiled_sql n) "") as [|Hsql]; [exact Hg|].
  destruct (get (model_columns catalog) name) as [mcols|] eqn:Emc;
    [|exact Hg].
  apply fold_left_inv; [exact Hg|].
  clear g Hg. intros g dep Hdep Hg. unfold Flat.dep_step.
  destruct (get (model_columns catalog) dep) as [ucols|] eqn:Euc;
    [|exact Hg].
  apply fold_left_inv; [exact Hg|].
  clear g Hg. intros g col Hcol Hg. unfold Flat.col_step.
  destruct (present (compiled_sql n) col) eqn:Egate; [|exact Hg].
  apply fold_left_inv.
  - intros m c u uc. unfold edge. rewrite upstream_cols_setdefault.
    apply Hg.
  - clear g Hg. intros g own Hown Hg. unfold Flat.own_step.
    destruct (linked (compiled_sql n) own col) eqn:Elink; [|exact Hg].
    intros m c u uc H. apply edge_flat_record in H.
    destruct H as [H|[= -> -> -> ->]]; [now apply Hg|].
    exists n, mcols, ucols. repeat split; assumption.
Qed.

Lemma targeted_sourced : sourced (Targeted.all_column_lineage nodes catalog).
Proof.
  unfold Targeted.all_column_lineage.
  apply fold_left_inv; [intros m c u uc H; now apply edge_empty in H|].
  intros g [name n] Hn Hg. unfold Targeted.node_step.
  destruct (is_model (resource_type n)) eqn:Ekind; [|exact Hg].
  destruct (String.eqb_spec (compiled_sql n) "") as [|Hsql]; [exact Hg|].
  destruct (get (model_columns catalog) name) as [mcols|] eqn:Emc;
    [|exact Hg].
  apply fold_left_inv; [exact Hg|].
  clear g Hg. intros g dep Hdep Hg. unfold Targeted.dep_step.
  destruct (get (model_columns catalog) dep) as [ucols|] eqn:Euc;
    [|exact Hg].
  apply fold_left_inv; [exact Hg|].
  clear g Hg. intros g col Hcol Hg. unfold Targeted.col_step.
  destruct (present (compiled_sql n) col) eqn:Egate; [|exact Hg].
  apply fold_left_inv; [exact Hg|].
  clear g Hg. intros g own Hown Hg. unfold Targeted.own_step.
  destruct (linked (compiled_sql n) own col) eqn:Elink; [|exact Hg].
  intros m c u uc H. apply edge_targeted_record in H.
  destruct H as [H|[= -> -> -> ->]]; [now apply Hg|].
  exists n, mcols, ucols. repeat split; assumption.
Qed.
End Provenance.

Lemma provenance_anchored nodes catalog m c u uc :
  provenance nodes catalog m c u uc ->
  declared_dependency nodes m u /\
  catalog_column catalog u uc /\
  catalog_column catalog m c.
Proof.
  intros (n & mcols & ucols & Hn & _ & _ & Hdep & Hm & Hc & Hu & Huc & _).
  apply model_columns_sound in Hm, Hu.
  destruct Hm as (mcn & ? & ? & <-), Hu as (ucn & ? & ? & <-).
  split; [now exists n|]. split; [now exists ucn|now exists mcn].
Qed.

(** C1.  Edge anchoring: every entry [(m, c, u, uc)] of the graph built by
    either mode has [u] among the declared dependencies of the manifest
    node [m], [uc] among the columns of a table/view catalog entry of [u],
    and [c] among the columns of a table/view catalog entry of [m]. *)
Theorem edge_anchoring nodes catalog m c u uc :
  (edge (Flat.column_lineage nodes catalog) m c u uc \/
   edge (Targeted.all_column_lineage nodes catalog) m c u uc) ->
  declared_dependency nodes m u /\
  catalog_column catalog u uc /\
  catalog_column catalog m c.
Proof.
  intros [H|H]; apply provenance_anchored.
  - now apply flat_sourced.
  - now apply targeted_sourced.
Qed.

Lemma edge_anchoring_witness :
  declared_dependency Scenario.aliasing_nodes "order_summary" "raw_orders" /\
  catalog_column Scenario.aliasing_catalog "raw_orders" "id" /\
  catalog_column Scenario.aliasing_catalog "order_summary" "order_id".
Proof.
  apply (@edge_anchoring Scenario.aliasing_nodes Scenario.aliasing_catalog
           "order_summary" "order_id" "raw_orders" "id").
  left. vm_compute. left. reflexivity.
Defined.

(** * The presence gate *)

(** C3.  Presence gate soundness: when the upstream column name [uc] does
    not occur as a whole word (case-sensitive) in the compiled text of the
    manifest node [m], neither mode records an entry [(m, c, u, uc)] for
    any [c] and [u]; and the step that handles [uc] returns the graph
    unchanged whatever the model's own columns are, so the gate decides
    before any own-column pattern is looked at. *)
Theorem presence_gate_soundness nodes catalog m uc :
  (forall n, In (m, n) nodes -> present (compiled_sql n) uc = false) ->
  (forall c u, ~ edge (Flat.column_lineage nodes catalog) m c u uc) /\
  (forall c u, ~ edge (Targeted.all_column_lineage nodes catalog) m c u uc) /\
  (forall n model_cols u g, In (m, n) nodes ->
     Flat.col_step (compiled_sql n) m model_cols u g uc = g /\
     Targeted.col_step (compiled_sql n) m model_cols u g uc = g).
Proof.
  intros Hgate. repeat split.
  - intros c u H. apply flat_sourced in H.
    destruct H as (n & ? & ? & Hn & _ & _ & _ & _ & _ & _ & _ & Hp & _).
    rewrite (Hgate n Hn) in Hp. discriminate.
  - intros c u H. apply targeted_sourced in H.
    destruct H as (n & ? & ? & Hn & _ & _ & _ & _ & _ & _ & _ & Hp & _).
    rewrite (Hgate n Hn) in Hp. discriminate.
  - unfold Flat.col_step. now rewrite (Hgate n H).
  - unfold Targeted.col_step. now rewrite (Hgate n H).
Qed.

Lemma presence_gate_soundness_witness :
  (forall c u, ~ edge (Flat.column_lineage Scenario.passthrough_nodes
                         Scenario.passthrough_catalog)
                 "order_summary" c u "customer_id") /\
  (forall c u, ~ edge (Targeted.all_column_lineage Scenario.passthrough_nodes
                         Scenario.passthrough_catalog)
                 "order_summary" c u "customer_id") /\
  (forall n model_cols u g,
     In ("order_summary", n) Scenario.passthrough_nodes ->
     Flat.col_step (compiled_sql n) "order_summary" model_cols u g
       "customer_id" = g /\
     Targeted.col_step (compiled_sql n) "order_summary" model_cols u g
       "customer_id" = g).
Proof.
  apply (@presence_gate_soundness Scenario.passthrough_nodes
           Scenario.passthrough_catalog "order_summary" "customer_id").
  intros n [H|[]]. injection H as <-. vm_compute. reflexivity.
Defined.

(** * The two scenarios *)

(** C4, as stated, fails: on the unaliased-passthrough input both modes do
    record an entry for [order_summary]. *)
Lemma passthrough_records_an_edge :
  ~ (forall c u uc,
       ~ edge (Flat.column_lineage Scenario.passthrough_nodes
                 Scenario.passthrough_catalog) "order_summary" c u uc) /\
  ~ (forall c u uc,
       ~ edge (Targeted.all_column_lineage Scenario.passthrough_nodes
                 Scenario.passthrough_catalog) "order_summary" c u uc).
Proof.
  split; intros H; apply (H "total" "orders" "order_id");
    vm_compute; left; reflexivity.
Qed.

(** C4, amended.  On the unaliased-passthrough input both modes build the
    graph with the single entry [order_summary.total <- orders.order_id]
    (the select/as pattern reaches from [order_id] over the comma to
    [as total]); no entry is recorded for the passthrough column
    [order_summary.order_id]. *)
Theorem passthrough_scenario :
  Flat.column_lineage Scenario.passthrough_nodes Scenario.passthrough_catalog
    = [("order_summary", [("total", [("orders", ["order_id"])])])] /\
  Targeted.all_column_lineage Scenario.passthrough_nodes
    Scenario.passthrough_catalog
    = [("order_summary", [("total", [("orders", ["order_id"])])])] /\
  edges (Flat.column_lineage Scenario.passthrough_nodes
           Scenario.passthrough_catalog)
    = [("order_summary", "total", "orders", "order_id")] /\
  (forall u uc,
     ~ edge (Flat.column_lineage Scenario.passthrough_nodes
               Scenario.passthrough_catalog) "order_summary" "order_id" u uc).
Proof.
  repeat split; try (vm_compute; reflexivity).
  intros u uc. unfold edge, upstream_cols.
  replace (Flat.column_lineage Scenario.passthrough_nodes
             Scenario.passthrough_catalog)
    with [("order_summary", [("total", [("orders", ["order_id"])])])]
    by (vm_compute; reflexivity).
  simpl. tauto.
Qed.

(** C5, as stated, fails: on the aliasing input both modes record a third
    entry, [order_summary.total <- raw_orders.id]. *)
Lemma aliasing_records_a_third_edge :
  edge (Flat.column_lineage Scenario.aliasing_nodes Scenario.aliasing_catalog)
    "order_summary" "total" "raw_orders" "id" /\
  edge (Targeted.all_column_lineage Scenario.aliasing_nodes
          Scenario.aliasing_catalog)
    "order_summary" "total" "raw_orders" "id".
Proof. split; vm_compute; left; reflexivity. Qed.

(** C5, amended.  On the aliasing input both modes build exactly the
    three entries [order_summary.order_id <- raw_orders.id],
    [order_summary.total <- raw_orders.id] and
    [order_summary.total <- raw_orders.amount]. *)
Theorem aliasing_scenario :
  Flat.column_lineage Scenario.aliasing_nodes Scenario.aliasing_catalog
    = [("order_summary",
        [("order_id", [("raw_orders", ["id"])]);
         ("total", [("raw_orders", ["id"; "amount"])])])] /\
  Targeted.all_column_lineage Scenario.aliasing_nodes Scenario.aliasing_catalog
    = [("order_summary",
        [("order_id", [("raw_orders", ["id"])]);
         ("total", [("raw_orders", ["id"; "amount"])])])] /\
  edges (Flat.column_lineage Scenario.aliasing_nodes Scenario.aliasing_catalog)
    = [("order_summary", "order_id", "raw_orders", "id");
       ("order_summary", "total", "raw_orders", "id");
       ("order_summary", "total", "raw_orders", "amount")].
Proof. repeat split; vm_compute; reflexivity. Qed.

(** * Deduplication *)

Lemma NoDup_snoc (A : Type) (l : list A) (x : A) :
  NoDup l -> ~ In x l -> NoDup (l ++ [x]).
Proof.
  intros Hl Hx. induction Hl as [|y l Hy Hl IH]; simpl.
  - constructor; [tauto|constructor].
  - constructor.
    + rewrite in_app_iff. simpl. intros [H|[H|[]]]; [contradiction|].
      subst. apply Hx. now left.
    + apply IH. intros H. apply Hx. now right.
Qed.

(** The targeted mode never stores a column twice in one list. *)
Lemma targeted_no_duplicates nodes catalog m c u :
  NoDup (upstream_cols (Targeted.all_column_lineage nodes catalog) m c u).
Proof.
  revert m c u. unfold Targeted.all_column_lineage.
  apply fold_left_inv with
    (P := fun g => forall m c u, NoDup (upstream_cols g m c u)).
  { intros m c u. unfold upstream_cols. simpl. constructor. }
  intros g [name n] _ Hg. unfold Targeted.node_step.
  destruct (is_model (resource_type n)); [|exact Hg].
  destruct (String.eqb (compiled_sql n) ""); [exact Hg|].
  destruct (get (model_columns catalog) name) as [mcols|]; [|exact Hg].
  apply fold_left_inv; [exact Hg|].
  clear g Hg. intros g dep _ Hg. unfold Targeted.dep_step.
  destruct (get (model_columns catalog) dep) as [ucols|]; [|exact Hg].
  apply fold_left_inv; [exact Hg|].
  clear g Hg. intros g col _ Hg. unfold Targeted.col_step.
  destruct (present (compiled_sql n) col); [|exact Hg].
  apply fold_left_inv; [exact Hg|].
  clear g Hg. intros g own _ Hg. unfold Targeted.own_step.
  destruct (linked (compiled_sql n) own col); [|exact Hg].
  intros m c u. rewrite targeted_record_cols.
  destruct (String.eqb m name && String.eqb c own && String.eqb u dep);
    [|apply Hg].
  simpl. destruct (str_in col (upstream_cols g m c u)) eqn:E; [apply Hg|].
  apply NoDup_snoc; [apply Hg|].
  intros H. apply str_in_In in H. congruence.
Qed.

(** C6.  The flat mode appends without the membership test of the targeted
    mode: on a dependency list that names [raw_orders] twice it stores the
    upstream column [id] twice under one (model, column, upstream model)
    key, where the targeted mode stores it once. *)
Theorem flat_mode_repeats_upstream_column :
  Flat.column_lineage Scenario.repeated_dep_nodes
    Scenario.repeated_dep_catalog
    = [("order_summary", [("order_id", [("raw_orders", ["id"; "id"])])])] /\
  ~ NoDup (upstream_cols
             (Flat.column_lineage Scenario.repeated_dep_nodes
                Scenario.repeated_dep_catalog)
             "order_summary" "order_id" "raw_orders") /\
  Targeted.all_column_lineage Scenario.repeated_dep_nodes
    Scenario.repeated_dep_catalog
    = [("order_summary", [("order_id", [("raw_orders", ["id"])])])].
Proof.
  split; [vm_compute; reflexivity|]. split; [|vm_compute; reflexivity].
  replace (upstream_cols _ _ _ _) with ["id"; "id"]
    by (vm_compute; reflexivity).
  intros H. inversion H as [|? ? Hnotin _]. apply Hnotin. now left.
Qed.

(** * Loops that may run out of fuel *)

Lemma foldM_inv (A B : Type) (P : A -> Prop) (f : A -> B -> option A)
    (l : list B) (a : A) :
  P a ->
  (forall a x, In x l -> P a -> exists a', f a x = Some a' /\ P a') ->
  exists a', foldM f l a = Some a' /\ P a'.
Proof.
  revert a. induction l as [|x l IH]; simpl; intros a Ha Hstep.
  - now exists a.
  - destruct (Hstep a x) as (a' & -> & Ha'); [now left|assumption|].
    apply IH; [assumption|]. intros a0 y Hy. apply Hstep. now right.
Qed.

Lemma foldM_post (A B : Type) (I : A -> Prop) (Q : B -> A -> Prop)
    (f : A -> B -> option A) (l : list B) (a r : A) :
  I a ->
  (forall a x a', In x l -> I a -> f a x = Some a' ->
     I a' /\ Q x a' /\ (forall y, Q y a -> Q y a')) ->
  foldM f l a = Some r ->
  I r /\ forall x, In x l -> Q x r.
Proof.
  revert a. induction l as [|x l IH]; simpl; intros a Ha Hstep Hr.
  - injection Hr as <-. split; [assumption|tauto].
  - destruct (f a x) as [a'|] eqn:E; [|discriminate].
    destruct (Hstep a x a') as (Ia' & Qx & Hkeep); [now left|assumption..|].
    assert (Hgen : forall z, Q z a' ->
              forall b, I a' -> foldM f l a' = Some b -> Q z b).
    { clear - Hstep. intros z. revert a'.
      induction l as [|y l IHl]; simpl; intros a' Hz b Ia' Hb.
      - now injection Hb as <-.
      - destruct (f a' y) as [a''|] eqn:E'; [|discriminate].
        destruct (Hstep a' y a'') as (Ia'' & _ & Hkeep');
          [right; now left|assumption..|].
        apply IHl with (a' := a''); auto.
        intros a0 x0 a0' Hin. apply Hstep.
        destruct Hin as [->|Hin]; [now left|right; now right]. }
    destruct (IH a') as [Ir Hall]; [assumption| |assumption|].
    { intros a0 y a0' Hy. apply Hstep. now right. }
    split; [assumption|].
    intros z [<-|Hz]; [|now apply Hall].
    now apply Hgen with (b := r) in Qx.
Qed.

Lemma foldM_mono (A B : Type) (f f' : A -> B -> option A) (l : list B)
    (a r : A) :
  (forall a x a', In x l -> f a x = Some a' -> f' a x = Some a') ->
  foldM f l a = Some r -> foldM f' l a = Some r.
Proof.
  revert a. induction l as [|x l IH]; simpl; intros a Hf Hr; [assumption|].
  destruct (f a x) as [a'|] eqn:E; [|discriminate].
  rewrite (Hf a x a'); [|now left|assumption].
  apply IH; [|assumption]. intros a0 y a0' Hy. apply Hf. now right.
Qed.

(** * The visited set as a measure *)

Lemma vkey_eqb_eq a b : vkey_eqb a b = true <-> a = b.
Proof.
  destruct a as [a1 a2], b as [b1 b2]. unfold vkey_eqb. simpl.
  rewrite andb_true_iff, !String.eqb_eq. split.
  - intros [-> ->]. reflexivity.
  - intros [= -> ->]. now split.
Qed.

Lemma vmem_In k v : vmem k v = true <-> In k v.
Proof.
  unfold vmem. rewrite existsb_exists. split.
  - intros (x & Hx & Heq). apply vkey_eqb_eq in Heq. now subst.
  - intros H. exists k. split; [assumption|now apply vkey_eqb_eq].
Qed.

Lemma vmem_false k v : vmem k v = false <-> ~ In k v.
Proof.
  rewrite <- vmem_In. destruct (vmem k v); split; congruence.
Qed.

Lemma filter_length_le (A : Type) (p q : A -> bool) (l : list A) :
  (forall x, In x l -> p x = true -> q x = true) ->
  List.length (filter p l) <= List.length (filter q l).
Proof.
  induction l as [|x l IH]; simpl; intros H; [lia|].
  assert (IH' : List.length (filter p l) <= List.length (filter q l))
    by (apply IH; intros y Hy; apply H; now right).
  destruct (p x) eqn:Ep.
  - rewrite (H x); [simpl; lia|now left|assumption].
  - destruct (q x); simpl; lia.
Qed.

Lemma filter_length_lt (A : Type) (p q : A -> bool) (l : list A) (k : A) :
  (forall x, In x l -> p x = true -> q x = true) ->
  In k l -> p k = false -> q k = true ->
  List.length (filter p l) < List.length (filter q l).
Proof.
  induction l as [|x l IH]; simpl; intros H Hk Hp Hq; [tauto|].
  assert (Hle : List.length (filter p l) <= List.length (filter q l))
    by (apply filter_length_le; intros y Hy; apply H; now right).
  destruct Hk as [->|Hk].
  - rewrite Hp, Hq. simpl. lia.
  - assert (IH' : List.length (filter p l) < List.length (filter q l))
      by (apply IH; auto; intros y Hy; apply H; now right).
    destruct (p x) eqn:Ep.
    + rewrite (H x); [simpl; lia|now left|assumption].
    + destruct (q x); simpl; lia.
Qed.

Lemma unvisited_incl U v v' :
  incl v v' -> unvisited U v' <= unvisited U v.
Proof.
  intros Hincl. unfold unvisited. apply filter_length_le.
  intros x _ Hx. apply negb_true_iff in Hx. apply negb_true_iff.
  apply vmem_false. apply vmem_false in Hx. intros H. apply Hx.
  now apply Hincl.
Qed.

Lemma unvisited_cons_lt U k v :
  In k U -> vmem k v = false -> unvisited U (k :: v) < unvisited U v.
Proof.
  intros Hk Hv. unfold unvisited. apply filter_length_lt with (k := k).
  - intros x _ Hx. apply negb_true_iff in Hx. apply negb_true_iff.
    apply vmem_false. apply vmem_false in Hx. intros H. apply Hx. now right.
  - assumption.
  - apply negb_false_iff. apply vmem_In. now left.
  - now rewrite Hv.
Qed.

Lemma unvisited_bound U v : unvisited U v <= List.length U.
Proof.
  unfold unvisited. induction U as [|x l IH]; simpl; [lia|].
  destruct (negb (vmem x v)); simpl; lia.
Qed.

Lemma extends_refl v : extends v v.
Proof. split; [apply incl_refl|tauto]. Qed.

Lemma extends_trans v1 v2 v3 : extends v1 v2 -> extends v2 v3 -> extends v1 v3.
Proof.
  intros [H1 N1] [H2 N2]. split; [eapply incl_tran; eassumption|tauto].
Qed.

Lemma extends_cons k v : vmem k v = false -> extends v (k :: v).
Proof.
  intros H. split; [apply incl_tl, incl_refl|].
  intros Hv. constructor; [now apply vmem_false|assumption].
Qed.

(** * Termination of the two traversals *)

Section Upstream.
Variable g : graph.
Variable U : list vkey.
Hypothesis U_closed :
  forall n c cols ups u l uc,
    get g n = Some cols -> get cols c = Some ups ->
    In (u, l) ups -> In uc l -> In (u, uc) U.

Lemma upstream_total fuel :
  forall n c v,
    In (n, c) U -> unvisited U v < fuel ->
    exists t v', get_upstream_lineage fuel g n c v = Some (t, v') /\
                 extends v v'.
Proof.
  induction fuel as [|fuel IH]; intros n c v Hkey Hfuel; [lia|].
  simpl. destruct (vmem (n, c) v) eqn:Ev.
  { exists (Clo []), v. split; [reflexivity|apply extends_refl]. }
  pose proof (@unvisited_cons_lt U _ _ Hkey Ev) as Hlt.
  pose proof (@extends_cons _ _ Ev) as Hext.
  destruct (get g n) as [cols|] eqn:Eg.
  2:{ exists (Clo []), ((n, c) :: v). now split. }
  destruct (get cols c) as [ups|] eqn:Ec.
  2:{ exists (Clo []), ((n, c) :: v). now split. }
  match goal with
  | |- context [foldM ?f ups ?a] =>
      destruct (@foldM_inv _ _ (fun st => extends ((n, c) :: v) (snd st))
                  f ups a) as (st & -> & Hst)
  end.
  - apply extends_refl.
  - intros st [u l] Hin Hst.
    apply foldM_inv with
      (P := fun st => extends ((n, c) :: v) (snd st)); [exact Hst|].
    clear st Hst. intros st uc Huc Hst.
    destruct (IH u uc (snd st)) as (t & v' & -> & Hv').
    + eapply U_closed; eassumption.
    + apply Nat.le_lt_trans with (1 := @unvisited_incl U _ _ (proj1 Hst)).
      apply Nat.lt_le_trans with (1 := Hlt).
      apply Nat.lt_succ_r. exact Hfuel.
    + eexists. split; [reflexivity|]. simpl.
      eapply extends_trans; eassumption.
  - simpl. eexists _, _. split; [reflexivity|].
    eapply extends_trans; eassumption.
Qed.
End Upstream.

Lemma get_upstream_lineage_mono fuel :
  forall g n c v r,
    get_upstream_lineage fuel g n c v = Some r ->
    get_upstream_lineage (S fuel) g n c v = Some r.
Proof.
  induction fuel as [|fuel IH]; intros g n c v r H; [discriminate|].
  remember (S fuel) as fuel1 eqn:Efuel1.
  rewrite Efuel1 in H. simpl in H. simpl.
  destruct (vmem (n, c) v); [assumption|].
  destruct (get g n) as [cols|]; [|assumption].
  destruct (get cols c) as [ups|]; [|assumption].
  match type of H with
  | option_map _ (foldM ?f ups ?a) = _ =>
      destruct (foldM f ups a) as [st|] eqn:E; [|simpl in H; discriminate]
  end.
  erewrite foldM_mono; [exact H| |exact E].
  intros st0 [u l] st0' _ H0.
  eapply foldM_mono; [|exact H0].
  intros st1 uc st1' _ H1. subst fuel1. cbv beta in H1.
  destruct (get_upstream_lineage fuel g u uc (snd st1)) as [[sub v']|] eqn:E1;
    [|discriminate].
  now rewrite (IH _ _ _ _ _ E1).
Qed.

Lemma get_upstream_lineage_stable g n c v r fuel fuel' :
  fuel <= fuel' ->
  get_upstream_lineage fuel g n c v = Some r ->
  get_upstream_lineage fuel' g n c v = Some r.
Proof.
  induction 1 as [|fuel' _ IH]; intros H; [assumption|].
  now apply get_upstream_lineage_mono, IH.
Qed.

Section Downstream.
Variable g : graph.
Variable D : list vkey.
Hypothesis D_closed :
  forall dn columns dc ups,
    In (dn, columns) g -> In (dc, ups) columns -> In (dn, dc) D.

Lemma downstream_total fuel :
  forall n c v,
    In (n, c) D -> unvisited D v < fuel ->
    exists t v', get_downstream_lineage fuel g n c v = Some (t, v') /\
                 extends v v'.
Proof.
  induction fuel as [|fuel IH]; intros n c v Hkey Hfuel; [lia|].
  simpl. destruct (vmem (n, c) v) eqn:Ev.
  { exists (Clo []), v. split; [reflexivity|apply extends_refl]. }
  pose proof (@unvisited_cons_lt D _ _ Hkey Ev) as Hlt.
  pose proof (@extends_cons _ _ Ev) as Hext.
  match goal with
  | |- context [foldM ?f g ?a] =>
      destruct (@foldM_inv _ _ (fun st => extends ((n, c) :: v) (snd st))
                  f g a) as (st & -> & Hst)
  end.
  - apply extends_refl.
  - intros st [dn columns] Hdn Hst.
    apply foldM_inv with
      (P := fun st => extends ((n, c) :: v) (snd st)); [exact Hst|].
    clear st Hst. intros st [dc ups] Hdc Hst.
    apply foldM_inv with
      (P := fun st => extends ((n, c) :: v) (snd st)); [exact Hst|].
    clear st Hst. intros st [un l] _ Hst.
    destruct (String.eqb un n && str_in c l); [|now exists st].
    destruct (contains2 (setdefault (fst st) dn []) dn dc).
    { eexists. split; [reflexivity|exact Hst]. }
    destruct (IH dn dc (snd st)) as (t & v' & -> & Hv').
    + eapply D_closed; eassumption.
    + apply Nat.le_lt_trans with (1 := @unvisited_incl D _ _ (proj1 Hst)).
      apply Nat.lt_le_trans with (1 := Hlt).
      apply Nat.lt_succ_r. exact Hfuel.
    + eexists. split; [reflexivity|]. simpl.
      eapply extends_trans; eassumption.
  - simpl. eexists _, _. split; [reflexivity|].
    eapply extends_trans; eassumption.
Qed.
End Downstream.

Lemma get_downstream_lineage_mono fuel :
  forall g n c v r,
    get_downstream_lineage fuel g n c v = Some r ->
    get_downstream_lineage (S fuel) g n c v = Some r.
Proof.
  induction fuel as [|fuel IH]; intros g n c v r H; [discriminate|].
  remember (S fuel) as fuel1 eqn:Efuel1.
  rewrite Efuel1 in H. simpl in H. simpl.
  destruct (vmem (n, c) v); [assumption|].
  match type of H with
  | option_map _ (foldM ?f g ?a) = _ =>
      destruct (foldM f g a) as [st|] eqn:E; [|simpl in H; discriminate]
  end.
  erewrite foldM_mono; [exact H| |exact E].
  intros st0 [dn columns] st0' _ H0.
  eapply foldM_mono; [|exact H0].
  intros st1 [dc ups] st1' _ H1.
  eapply foldM_mono; [|exact H1].
  intros st2 [un l] st2' _ H2. subst fuel1. cbv beta iota in H2.
  destruct (String.eqb un n && str_in c l); [|assumption].
  destruct (contains2 (setdefault (fst st2) dn []) dn dc); [assumption|].
  destruct (get_downstream_lineage fuel g dn dc (snd st2)) as [[sub v']|]
    eqn:E2; [|discriminate].
  now rewrite (IH _ _ _ _ _ E2).
Qed.

Lemma get_downstream_lineage_stable g n c v r fuel fuel' :
  fuel <= fuel' ->
  get_downstream_lineage fuel g n c v = Some r ->
  get_downstream_lineage fuel' g n c v = Some r.
Proof.
  induction 1 as [|fuel' _ IH]; intros H; [assumption|].
  now apply get_downstream_lineage_mono, IH.
Qed.

(** the bounds cover every pair a traversal can reach *)
Lemma in_edges g m cols c ups u l uc :
  In (m, cols) g -> In (c, ups) cols -> In (u, l) ups -> In uc l ->
  In (m, c, u, uc) (edges g).
Proof.
  intros Hm Hc Hu Huc. unfold edges.
  apply in_flat_map. exists (m, cols). split; [assumption|].
  apply in_flat_map. exists (c, ups). split; [assumption|].
  apply in_flat_map. exists (u, l). split; [assumption|].
  apply in_map_iff. now exists uc.
Qed.

Lemma up_pairs_closed g n c cols ups u l uc :
  get g n = Some cols -> get cols c = Some ups ->
  In (u, l) ups -> In uc l -> In (u, uc) (up_pairs g).
Proof.
  intros Hn Hc Hu Huc. unfold up_pairs.
  apply in_map_iff. exists (n, c, u, uc). split; [reflexivity|].
  eapply in_edges; eauto using get_In.
Qed.

Lemma down_pairs_closed g dn columns dc (ups : odict (list string)) :
  In (dn, columns) g -> In (dc, ups) columns -> In (dn, dc) (down_pairs g).
Proof.
  intros Hdn Hdc. unfold down_pairs.
  apply in_flat_map. exists (dn, columns). split; [assumption|].
  apply in_map_iff. now exists (dc, ups).
Qed.

Lemma upstream_closure_exists g m c :
  exists t v, upstream_closure g m c t v /\ NoDup v.
Proof.
  destruct (@upstream_total g ((m, c) :: up_pairs g)) with
    (fuel := upstream_fuel g) (n := m) (c := c) (v := @nil vkey)
    as (t & v & Hrun & Hext).
  - intros n c0 cols ups u l uc Hn Hc Hu Huc. right.
    eapply up_pairs_closed; eassumption.
  - now left.
  - unfold upstream_fuel.
    pose proof (unvisited_bound ((m, c) :: up_pairs g) []) as Hb.
    simpl in Hb. simpl. lia.
  - exists t, v. split.
    + intros fuel Hfuel. eapply get_upstream_lineage_stable; eassumption.
    + apply Hext. constructor.
Qed.

Lemma downstream_closure_exists g m c :
  exists t v, downstream_closure g m c t v /\ NoDup v.
Proof.
  destruct (@downstream_total g ((m, c) :: down_pairs g)) with
    (fuel := downstream_fuel g) (n := m) (c := c) (v := @nil vkey)
    as (t & v & Hrun & Hext).
  - intros dn columns dc ups Hdn Hdc. right.
    eapply down_pairs_closed; eassumption.
  - now left.
  - unfold downstream_fuel.
    pose proof (unvisited_bound ((m, c) :: down_pairs g) []) as Hb.
    simpl in Hb. simpl. lia.
  - exists t, v. split.
    + intros fuel Hfuel. eapply get_downstream_lineage_stable; eassumption.
    + apply Hext. constructor.
Qed.

(** * Direct relatives are keys of the closure *)

Section Keys.
Variable V : Type.
Implicit Types (r : odict (odict V)).

Lemma grows_refl r : grows r r.
Proof. intros a b H. exact H. Qed.

Lemma grows_trans r1 r2 r3 : grows r1 r2 -> grows r2 r3 -> grows r1 r3.
Proof. intros H1 H2 a b H. apply H2, H1, H. Qed.

Lemma grows_setdefault r k : grows r (setdefault r k []).
Proof.
  intros a b. unfold contains2. rewrite get_setdefault.
  destruct (String.eqb_spec a k) as [->|Hne]; [|tauto].
  destruct (get r k); [tauto|discriminate].
Qed.

Lemma grows_upd_set r k x (sub : V) :
  grows r (upd r k (fun d => set d x sub)).
Proof.
  intros a b. unfold contains2. rewrite get_upd.
  destruct (String.eqb_spec a k) as [->|Hne]; [|tauto].
  destruct (get r k) as [d|]; unfold option_map; [|discriminate].
  unfold contains. cbv beta iota. rewrite get_set.
  destruct (String.eqb b x); [reflexivity|tauto].
Qed.

Lemma contains2_upd_set r k x (sub : V) :
  contains r k = true ->
  contains2 (upd r k (fun d => set d x sub)) k x = true.
Proof.
  unfold contains, contains2. rewrite get_upd, String.eqb_refl.
  destruct (get r k) as [d|]; [|discriminate]. intros _.
  unfold option_map, contains. cbv beta iota. now rewrite get_set_same.
Qed.
End Keys.

Lemma contains2_appearsb d m c :
  contains2 d m c = true -> appearsb m c (Clo d) = true.
Proof.
  unfold contains2, contains.
  destruct (get d m) as [cols|] eqn:Em; [|discriminate].
  destruct (get cols c) as [sub|] eqn:Ec; [|discriminate]. intros _.
  simpl. apply existsb_exists. exists (m, cols).
  split; [now apply get_In|]. simpl.
  apply existsb_exists. exists (c, sub).
  split; [now apply get_In|]. simpl.
  now rewrite !String.eqb_refl.
Qed.

Lemma upstream_direct fuel g m c u uc t v :
  get_upstream_lineage fuel g m c [] = Some (t, v) ->
  edge g m c u uc ->
  contains2 (closure_dict t) u uc = true.
Proof.
  intros H He. destruct fuel as [|fuel]; [discriminate|]. simpl in H.
  unfold edge, upstream_cols in He.
  destruct (get g m) as [cols|]; [|contradiction].
  destruct (get cols c) as [ups|]; [|contradiction].
  destruct (get ups u) as [l|] eqn:Eu; [|contradiction].
  match type of H with
  | option_map _ (foldM ?f ups ?a) = _ =>
      destruct (foldM f ups a) as [st|] eqn:E; [|simpl in H; discriminate]
  end.
  simpl in H. injection H as <- <-. simpl.
  apply foldM_post with
    (I := fun _ => True)
    (Q := fun (e : string * list string) (st : odict (odict closure) * vset) =>
            forall x, In x (snd e) -> contains2 (fst st) (fst e) x = true)
    in E.
  - destruct E as [_ E]. apply (E (u, l)); [now apply get_In|assumption].
  - exact I.
  - intros a [u' l'] a' _ _ Hbody.
    apply foldM_post with
      (I := fun s : odict (odict closure) * vset =>
              contains (fst s) u' = true /\ grows (fst a) (fst s))
      (Q := fun x (s : odict (odict closure) * vset) =>
              contains2 (fst s) u' x = true)
      in Hbody.
    + destruct Hbody as [[_ Hg] Hq]. split; [exact I|]. split.
      * exact Hq.
      * intros [y ly] Hy x Hx. apply Hg. now apply Hy.
    + simpl. split; [apply contains_setdefault_same|apply grows_setdefault].
    + intros s x s' _ [Hc Hg] Hs. cbv beta in Hs.
      destruct (get_upstream_lineage fuel g u' x (snd s)) as [[sub v']|];
        [|discriminate].
      injection Hs as <-. simpl. repeat split.
      * now rewrite contains_upd.
      * eapply grows_trans; [exact Hg|apply grows_upd_set].
      * now apply contains2_upd_set.
      * intros y. apply grows_upd_set.
Qed.

Lemma downstream_direct fuel g m c u uc t v cols ups l :
  get_downstream_lineage fuel g u uc [] = Some (t, v) ->
  In (m, cols) g -> In (c, ups) cols -> In (u, l) ups -> In uc l ->
  contains2 (closure_dict t) m c = true.
Proof.
  intros H Hm Hc Hu Huc. destruct fuel as [|fuel]; [discriminate|].
  simpl in H.
  match type of H with
  | option_map _ (foldM ?f g ?a) = _ =>
      destruct (foldM f g a) as [st|] eqn:E; [|simpl in H; discriminate]
  end.
  simpl in H. injection H as <- <-. simpl.
  pose (hit := fun (dn dc : string) (e : string * list string)
                   (s : odict (odict closure) * vset) =>
                 fst e = u -> In uc (snd e) ->
                 contains2 (fst s) dn dc = true).
  apply foldM_post with
    (I := fun _ => True)
    (Q := fun (e : string * odict (odict (list string)))
              (s : odict (odict closure) * vset) =>
            forall e1 e2, In e1 (snd e) -> In e2 (snd e1) ->
                          hit (fst e) (fst e1) e2 s)
    in E.
  - destruct E as [_ E].
    apply (E (m, cols) Hm (c, ups) (u, l)); auto.
  - exact I.
  - intros a [dn columns] a' _ _ Hcols.
    apply foldM_post with
      (I := fun s : odict (odict closure) * vset => grows (fst a) (fst s))
      (Q := fun (e1 : string * odict (list string))
                (s : odict (odict closure) * vset) =>
              forall e2, In e2 (snd e1) -> hit dn (fst e1) e2 s)
      in Hcols.
    + destruct Hcols as [Hg Hq]. split; [exact I|]. split.
      * intros e1 e2 H1 H2. now apply Hq.
      * intros [y ycols] Hy e1 e2 H1 H2 Hfst Hsnd.
        apply Hg. exact (Hy e1 e2 H1 H2 Hfst Hsnd).
    + apply grows_refl.
    + intros b [dc ups'] b' _ Hb Hups.
      apply foldM_post with
        (I := fun s : odict (odict closure) * vset => grows (fst b) (fst s))
        (Q := fun (e2 : string * list string)
                  (s : odict (odict closure) * vset) => hit dn dc e2 s)
        in Hups.
      * destruct Hups as [Hg Hq]. split; [|split].
        -- eapply grows_trans; eassumption.
        -- exact Hq.
        -- intros [y yups] Hy e2 H2 Hfst Hsnd. apply Hg.
           exact (Hy e2 H2 Hfst Hsnd).
      * apply grows_refl.
      * intros s [un l'] s' _ Hs Hstep. cbv beta iota in Hstep.
        unfold hit. simpl.
        destruct (String.eqb_spec un u) as [->|Hne]; simpl in Hstep.
        2:{ injection Hstep as <-. repeat split; auto; contradiction. }
        destruct (str_in uc l') eqn:Ein.
        2:{ injection Hstep as <-. repeat split; auto.
            intros _ Hl. apply str_in_In in Hl. congruence. }
        destruct (contains2 (setdefault (fst s) dn []) dn dc) eqn:Ehave.
        { injection Hstep as <-. simpl. repeat split.
          - eapply grows_trans; [exact Hs|apply grows_setdefault].
          - intros _ _. exact Ehave.
          - intros y Hy Hfst Hsnd. apply grows_setdefault. now apply Hy. }
        destruct (get_downstream_lineage fuel g dn dc (snd s))
          as [[sub v']|]; [|discriminate].
        injection Hstep as <-. simpl. repeat split.
        -- eapply grows_trans; [exact Hs|].
           eapply grows_trans; [apply grows_setdefault|apply grows_upd_set].
        -- intros _ _. apply contains2_upd_set.
           apply contains_setdefault_same.
        -- intros y Hy Hfst Hsnd. apply grows_upd_set, grows_setdefault.
           now apply Hy.
Qed.

Lemma edge_In g m c u uc :
  edge g m c u uc ->
  exists cols ups l,
    In (m, cols) g /\ In (c, ups) cols /\ In (u, l) ups /\ In uc l.
Proof.
  unfold edge, upstream_cols.
  destruct (get g m) as [cols|] eqn:Em; [|contradiction].
  destruct (get cols c) as [ups|] eqn:Ec; [|contradiction].
  destruct (get ups u) as [l|] eqn:Eu; [|contradiction].
  intros H. exists cols, ups, l. auto using get_In.
Qed.

(** * Closure resolver: termination and round trip *)



(** C9.  Round trip: for every entry [(m, c, u, uc)] of a graph, the
    upstream closure of the root [(m, c)] contains the pair [(u, uc)] and
    the downstream closure of the root [(u, uc)] contains the pair
    [(m, c)], each traversal started with an empty visited set. *)
Theorem closure_round_trip g m c u uc :
  edge g m c u uc ->
  (exists t v, upstream_closure g m c t v /\ appearsb u uc t = true) /\
  (exists t v, downstream_closure g u uc t v /\ appearsb m c t = true).
Proof.
  intros He. split.
  - destruct (upstream_closure_exists g m c) as (t & v & Hc & _).
    exists t, v. split; [exact Hc|].
    destruct t as [d]. apply contains2_appearsb.
    apply (@upstream_direct (upstream_fuel g) g m c u uc (Clo d) v);
      [apply Hc; lia|exact He].
  - destruct (downstream_closure_exists g u uc) as (t & v & Hc & _).
    exists t, v. split; [exact Hc|].
    destruct (@edge_In g m c u uc He)
      as (cols & ups & l & Hm & Hcol & Hu & Huc).
    destruct t as [d]. apply contains2_appearsb.
    apply (@downstream_direct (downstream_fuel g) g m c u uc (Clo d) v
             cols ups l); auto.
Qed.

Lemma closure_round_trip_witness :
  (exists t v, upstream_closure Scenario.cyclic_graph "A" "x" t v /\
               appearsb "B" "y" t = true) /\
  (exists t v, downstream_closure Scenario.cyclic_graph "B" "y" t v /\
               appearsb "A" "x" t = true).
Proof.
  apply (@closure_round_trip Scenario.cyclic_graph "A" "x" "B" "y").
  vm_compute. left. reflexivity.
Defined.

(** the cycle of the specification: the traversal from [A.x] stops when it
    meets [A.x] again *)
Example cyclic_upstream :
  get_upstream_lineage (upstream_fuel Scenario.cyclic_graph)
    Scenario.cyclic_graph "A" "x" []
  = Some (Clo [("B", [("y", Clo [("A", [("x", Clo [])])])])],
          [("B", "y"); ("A", "x")]).
Proof. vm_compute. reflexivity. Qed.

(** * The targeted run *)

Lemma find_target_none nodes t :
  (forall name n, In (name, n) nodes -> last_segment name <> t) ->
  find_target nodes t = None.
Proof.
  induction nodes as [|[name n] nodes IH]; simpl; intros H; [reflexivity|].
  destruct (String.eqb_spec (last_segment name) t) as [Heq|_].
  - exfalso. apply (H name n); [now left|assumption].
  - apply IH. intros name' n' Hin. apply (H name' n'). now right.
Qed.

(** C10, as stated, fails: for a target name that no manifest node has as
    its last dot-separated segment the call returns the empty dictionary
    of line 48.  It has no [upstream] and no [downstream] entry, so it is
    not the pair of empty lineage structures that a run without lineage
    returns (line 290), whatever the fuel. *)
Lemma missing_target_returns_no_lineage_structures :
  find_target Scenario.aliasing_nodes "customers" = None /\
  (forall fuel,
     let r := extract_model_column_lineage fuel Scenario.aliasing_nodes
                Scenario.aliasing_catalog (Some "customers") "out" in
     result r <> Ok [("upstream", []); ("downstream", [])] /\
     result r <> result (empty_run "out" "customers") /\
     (forall d, result r = Ok d ->
        get d "upstream" = None /\ get d "downstream" = None)).
Proof.
  split; [vm_compute; reflexivity|]. intros fuel.
  assert (E : result (extract_model_column_lineage fuel
                        Scenario.aliasing_nodes Scenario.aliasing_catalog
                        (Some "customers") "out") = Ok [])
    by reflexivity.
  cbv zeta. rewrite E.
  split; [discriminate|]. split; [vm_compute; discriminate|].
  intros d Hd. injection Hd as <-. split; reflexivity.
Qed.

(** C10, amended.  Missing target model: when a target name is given and
    no manifest node has it as its last dot-separated segment, the run
    raises nothing and does not go on: it prints the not-found message,
    writes no file and returns the empty dictionary, which has neither an
    upstream nor a downstream entry. *)
Theorem missing_target_model fuel nodes catalog t output_dir :
  t <> "" ->
  (forall name n, In (name, n) nodes -> last_segment name <> t) ->
  let r := extract_model_column_lineage fuel nodes catalog (Some t)
             output_dir in
  result r = Ok [] /\
  printed r = [("Model '" ++ t ++ "' not found in the manifest.")%string] /\
  files r = [].
Proof.
  intros Ht Hnone. unfold extract_model_column_lineage, requested.
  destruct (String.eqb_spec t "") as [|_]; [contradiction|].
  rewrite (find_target_none _ Hnone). simpl. auto.
Qed.

Lemma missing_target_model_witness :
  let r := extract_model_column_lineage 0 Scenario.aliasing_nodes
             Scenario.aliasing_catalog (Some "customers") "out" in
  result r = Ok [] /\
  printed r = ["Model 'customers' not found in the manifest."] /\
  files r = [].
Proof.
  apply (@missing_target_model 0 Scenario.aliasing_nodes
           Scenario.aliasing_catalog "customers" "out").
  - discriminate.
  - intros name n [H|[]]. injection H as <- <-. vm_compute. discriminate.
Defined.

Lemma export_csv_count fuel output_dir model_name up down :
  csv_count (export fuel output_dir model_name up down) <= 2.
Proof.
  unfold export, csv_count.
  destruct (write_flat_csv fuel "Upstream" up []) as [up_rows [[]|e|]];
    try (simpl; lia).
  destruct (write_flat_csv fuel "Downstream" down []) as [down_rows [[]|e|]];
    simpl; lia.
Qed.

Lemma run_csv_count fuel nodes catalog target output_dir :
  csv_count (extract_model_column_lineage fuel nodes catalog target
               output_dir) <= 2.
Proof.
  unfold extract_model_column_lineage.
  destruct (requested target) as [t|]; [|apply export_csv_count].
  destruct (find_target nodes t) as [name|]; [|unfold csv_count; simpl; lia].
  destruct (build_lineage _ _ name) as [up|];
    [|unfold csv_count; simpl; lia].
  destruct (build_lineage _ _ name) as [down|];
    [|unfold csv_count; simpl; lia].
  apply export_csv_count.
Qed.

(** C8.  The export never produces four tabular files: no run writes more
    than two, and a targeted run on the aliasing scenario with the target
    resolved writes the two structured documents and the two tabular
    files whose rows have four cells and no depth.  The writers with a
    depth column, [write_depth_csv], are not part of the run. *)
Theorem targeted_export_has_no_depth_files :
  (forall fuel nodes catalog target output_dir,
     csv_count (extract_model_column_lineage fuel nodes catalog target
                  output_dir) <= 2) /\
  files (extract_model_column_lineage 10 Scenario.aliasing_nodes
           Scenario.aliasing_catalog (Some "order_summary") "out")
  = [("out/order_summary_upstream_lineage.json",
      Json [("order_summary",
             [("order_id", Clo [("raw_orders", [("id", Clo [])])]);
              ("total",
               Clo [("raw_orders", [("id", Clo []); ("amount", Clo [])])])])]);
     ("out/order_summary_downstream_lineage.json",
      Json [("order_summary", [("order_id", Clo []); ("total", Clo [])])]);
     ("out/order_summary_upstream_lineage.csv",
      Csv [[Str "Model"; Str "Column"; Str "Upstream Model";
            Str "Upstream Column"];
           [Str "order_summary"; Str "order_id"; Str "raw_orders"; Str "id"];
           [Str "order_summary"; Str "total"; Str "raw_orders"; Str "id"];
           [Str "order_summary"; Str "total"; Str "raw_orders";
            Str "amount"]]);
     ("out/order_summary_downstream_lineage.csv",
      Csv [[Str "Model"; Str "Column"; Str "Downstream Model";
            Str "Downstream Column"]])].
Proof.
  split; [intros; apply run_csv_count|].
  vm_compute. reflexivity.
Qed.

(** On a chain of two hops the flattening looks the second hop up under
    the upstream model, which is no key of [upstream_lineage]: the run
    stops with a [KeyError] after the two structured documents and part of
    the first tabular file. *)
Example chain_run_raises :
  let r := extract_model_column_lineage 10 Scenario.chain_nodes
             Scenario.chain_catalog (Some "t") "out" in
  result r = Raise (KeyError "proj.u") /\ csv_count r = 1.
Proof. vm_compute. split; reflexivity. Qed.

(** * The two modes side by side *)

(** C7, as stated, fails: where an upstream column is present in the text
    and linked to no own column, the flat graph holds the model with an
    empty column map and the targeted graph does not hold the model. *)
Lemma modes_differ_on_unlinked_column :
  Flat.column_lineage Scenario.unlinked_nodes Scenario.unlinked_catalog
    = [("order_summary", [])] /\
  Targeted.all_column_lineage Scenario.unlinked_nodes
    Scenario.unlinked_catalog = [] /\
  Flat.column_lineage Scenario.unlinked_nodes Scenario.unlinked_catalog
    <> Targeted.all_column_lineage Scenario.unlinked_nodes
         Scenario.unlinked_catalog.
Proof.
  split; [vm_compute; reflexivity|]. split; [vm_compute; reflexivity|].
  vm_compute. discriminate.
Qed.

Lemma same_maps_setdefault F T n :
  same_maps F T -> same_maps (setdefault F n []) T.
Proof.
  intros H m. rewrite get_setdefault, (H m).
  destruct (String.eqb_spec m n) as [->|Hne]; [|reflexivity].
  destruct (get F n) as [[|e cols]|]; reflexivity.
Qed.

Lemma same_maps_record F T n own d col :
  contains F n = true -> same_maps F T -> ~ edge F n own d col ->
  same_maps (Flat.record F n own d col) (Targeted.record T n own d col).
Proof.
  intros Hc Hrel Hfresh m. unfold Flat.record, Targeted.record.
  rewrite !get_upd, !get_setdefault.
  destruct (String.eqb_spec m n) as [->|Hne]; [|apply Hrel].
  rewrite ?String.eqb_refl.
  unfold contains in Hc. unfold edge, upstream_cols in Hfresh.
  rewrite (Hrel n).
  destruct (get F n) as [cols|] eqn:EF; [clear Hc|discriminate].
  assert (Hdefault :
            match strip (Some cols) with Some x => x | None => [] end = cols)
    by (destruct cols; reflexivity).
  rewrite Hdefault. unfold option_map.
  match goal with
  | |- Some ?a = strip (Some ?b) =>
      assert (Hab : a = b); [|assert (Hb : b <> [])]
  end.
  - apply upd_ext. intros ups Hups.
    rewrite get_setdefault, String.eqb_refl in Hups. injection Hups as <-.
    apply upd_ext. intros l Hl.
    rewrite get_setdefault, String.eqb_refl in Hl. injection Hl as <-.
    destruct (get cols own) as [ups|].
    + destruct (get ups d) as [l|].
      * destruct (str_in col l) eqn:E; [|reflexivity].
        apply str_in_In in E. contradiction.
      * reflexivity.
    + reflexivity.
  - apply upd_nonempty, contains_setdefault_same.
  - rewrite Hab.
    match goal with |- Some ?b = _ => destruct b; [congruence|reflexivity] end.
Qed.

(** what the flat loops can add to the graph *)
Section FlatFrame.
Variable mc : odict (list string).
Variables sql n : string.
Variable model_cols : list string.

Lemma flat_own_loop_frame d col own_cols g m c u x :
  edge (fold_left (Flat.own_step sql n d col) own_cols g) m c u x ->
  edge g m c u x \/ (m = n /\ u = d /\ x = col).
Proof.
  revert m c u x.
  apply fold_left_inv with
    (P := fun g' => forall m c u x, edge g' m c u x ->
            edge g m c u x \/ (m = n /\ u = d /\ x = col)); [auto|].
  intros g' own _ IH m c u x. unfold Flat.own_step.
  destruct (linked sql own col); [|apply IH].
  intros H. apply edge_flat_record in H.
  destruct H as [H|[= -> -> -> ->]]; [now apply IH|right; auto].
Qed.

Lemma flat_col_frame d g col m c u x :
  edge (Flat.col_step sql n model_cols d g col) m c u x ->
  edge g m c u x \/ (m = n /\ u = d /\ x = col).
Proof.
  unfold Flat.col_step. destruct (present sql col); [|now left].
  intros H. apply flat_own_loop_frame in H.
  unfold edge in H. rewrite upstream_cols_setdefault in H. exact H.
Qed.

Lemma flat_dep_frame g d m c u x :
  edge (Flat.dep_step mc sql n model_cols g d) m c u x ->
  edge g m c u x \/ (m = n /\ u = d).
Proof.
  unfold Flat.dep_step. destruct (get mc d) as [dep_cols|]; [|now left].
  revert m c u x.
  apply fold_left_inv with
    (P := fun g' => forall m c u x, edge g' m c u x ->
            edge g m c u x \/ (m = n /\ u = d)); [auto|].
  intros g' col _ IH m c u x H. apply flat_col_frame in H.
  destruct H as [H|(-> & -> & ->)]; [now apply IH|right; auto].
Qed.

Lemma flat_dep_loop_frame deps g m c u x :
  edge (fold_left (Flat.dep_step mc sql n model_cols) deps g) m c u x ->
  edge g m c u x \/ m = n.
Proof.
  revert m c u x.
  apply fold_left_inv with
    (P := fun g' => forall m c u x, edge g' m c u x ->
            edge g m c u x \/ m = n); [auto|].
  intros g' d _ IH m c u x H. apply flat_dep_frame in H.
  destruct H as [H|[-> _]]; [now apply IH|now right].
Qed.
End FlatFrame.

Lemma flat_node_frame mc g name nd m c u x :
  edge (Flat.node_step mc g (name, nd)) m c u x ->
  edge g m c u x \/ m = name.
Proof.
  unfold Flat.node_step.
  destruct (is_model (resource_type nd)); [|now left].
  destruct (String.eqb (compiled_sql nd) ""); [now left|].
  destruct (get mc name) as [model_cols|]; [|now left].
  apply flat_dep_loop_frame.
Qed.

(** the two modes in lockstep, as long as nothing is recorded twice *)
Section Lockstep.
Variable mc : odict (list string).
Hypothesis mc_nodup : forall x cols, get mc x = Some cols -> NoDup cols.
Variables sql n : string.
Variable model_cols : list string.
Hypothesis model_cols_nodup : NoDup model_cols.

Lemma lockstep_own_loop d col own_cols :
  NoDup own_cols ->
  forall F T,
    contains F n = true -> same_maps F T ->
    (forall c, In c own_cols -> ~ edge F n c d col) ->
    same_maps (fold_left (Flat.own_step sql n d col) own_cols F)
              (fold_left (Targeted.own_step sql n d col) own_cols T).
Proof.
  induction 1 as [|own rest Hown Hrest IH]; intros F T Hc Hrel Hfresh;
    [exact Hrel|].
  simpl. unfold Flat.own_step at 2, Targeted.own_step at 2.
  destruct (linked sql own col).
  - apply IH.
    + unfold Flat.record. now rewrite contains_upd.
    + apply same_maps_record; [assumption..|]. apply Hfresh. now left.
    + intros c Hin. unfold edge. rewrite flat_record_cols.
      destruct (String.eqb_spec c own) as [->|Hne]; [contradiction|].
      rewrite andb_false_r. simpl. apply Hfresh. now right.
  - apply IH; [assumption..|]. intros c Hin. apply Hfresh. now right.
Qed.

Lemma lockstep_col_loop d dep_cols :
  NoDup dep_cols ->
  forall F T,
    same_maps F T ->
    (forall c x, edge F n c d x -> ~ In x dep_cols) ->
    same_maps (fold_left (Flat.col_step sql n model_cols d) dep_cols F)
              (fold_left (Targeted.col_step sql n model_cols d) dep_cols T).
Proof.
  induction 1 as [|col rest Hcol Hrest IH]; intros F T Hrel Hfresh;
    [exact Hrel|].
  simpl. apply IH.
  - unfold Flat.col_step, Targeted.col_step.
    destruct (present sql col); [|exact Hrel].
    apply lockstep_own_loop.
    + exact model_cols_nodup.
    + apply contains_setdefault_same.
    + now apply same_maps_setdefault.
    + intros c _ H. unfold edge in H. rewrite upstream_cols_setdefault in H.
      apply (Hfresh c col H). now left.
  - intros c x H. apply flat_col_frame in H.
    destruct H as [H|(_ & _ & ->)]; [|exact Hcol].
    intros Hin. apply (Hfresh c x H). now right.
Qed.

Lemma lockstep_dep_loop deps :
  NoDup deps ->
  forall F T,
    same_maps F T ->
    (forall c u x, edge F n c u x -> ~ In u deps) ->
    same_maps (fold_left (Flat.dep_step mc sql n model_cols) deps F)
              (fold_left (Targeted.dep_step mc sql n model_cols) deps T).
Proof.
  induction 1 as [|d rest Hd Hrest IH]; intros F T Hrel Hfresh;
    [exact Hrel|].
  simpl. apply IH.
  - unfold Flat.dep_step, Targeted.dep_step.
    destruct (get mc d) as [dep_cols|] eqn:Ed; [|exact Hrel].
    apply lockstep_col_loop; [now apply (mc_nodup d)|exact Hrel|].
    intros c x H. exfalso. apply (Hfresh c d x H). now left.
  - intros c u x H. apply flat_dep_frame in H.
    destruct H as [H|[_ ->]]; [|exact Hd].
    intros Hin. apply (Hfresh c u x H). now right.
Qed.
End Lockstep.

Lemma lockstep_node_loop mc nodes :
  (forall x cols, get mc x = Some cols -> NoDup cols) ->
  NoDup (keys nodes) ->
  (forall name nd, In (name, nd) nodes -> NoDup (depends_on nd)) ->
  forall F T,
    same_maps F T ->
    (forall m c u x, edge F m c u x -> ~ In m (keys nodes)) ->
    same_maps (fold_left (Flat.node_step mc) nodes F)
              (fold_left (Targeted.node_step mc) nodes T).
Proof.
  intros Hmc. induction nodes as [|[name nd] rest IH];
    intros Hkeys Hdeps F T Hrel Hfresh; [exact Hrel|].
  simpl in Hkeys. inversion Hkeys as [|? ? Hname Hrest]; subst.
  simpl. apply IH.
  - exact Hrest.
  - intros name' nd' Hin. apply (Hdeps name' nd'). now right.
  - unfold Flat.node_step, Targeted.node_step.
    destruct (is_model (resource_type nd)); [|exact Hrel].
    destruct (String.eqb (compiled_sql nd) ""); [exact Hrel|].
    destruct (get mc name) as [model_cols|] eqn:Em; [|exact Hrel].
    apply lockstep_dep_loop.
    + exact Hmc.
    + now apply (Hmc name).
    + apply (Hdeps name nd). now left.
    + exact Hrel.
    + intros c u x H. exfalso. apply (Hfresh name c u x H). now left.
  - intros m c u x H. apply flat_node_frame in H.
    destruct H as [H| ->]; [|exact Hname].
    intros Hin. apply (Hfresh m c u x H). now right.
Qed.

Lemma model_columns_nodup catalog :
  (forall x cn, In (x, cn) catalog -> NoDup (columns cn)) ->
  forall x cols, get (model_columns catalog) x = Some cols -> NoDup cols.
Proof.
  intros H x cols Hget. apply model_columns_sound in Hget.
  destruct Hget as (cn & Hin & _ & <-). now apply (H x).
Qed.

Lemma same_maps_edges F T : same_maps F T -> same_edges F T.
Proof.
  intros H m c u uc. unfold edge, upstream_cols. rewrite (H m).
  destruct (get F m) as [[|e cols]|]; simpl; tauto.
Qed.

(** C7, amended.  On inputs whose manifest keys, catalog column names and
    dependency lists are free of repetitions, the targeted graph holds
    under every model key the very column map (same column keys, same
    upstream-model keys, same upstream-column lists) that the flat graph
    holds there; the model keys are the same except that the flat graph
    also keeps the models whose column map is empty.  In particular the
    two graphs have the same entries. *)
Theorem mode_equivalence nodes catalog :
  NoDup (keys nodes) ->
  (forall name nd, In (name, nd) nodes -> NoDup (depends_on nd)) ->
  (forall x cn, In (x, cn) catalog -> NoDup (columns cn)) ->
  same_maps (Flat.column_lineage nodes catalog)
            (Targeted.all_column_lineage nodes catalog) /\
  same_edges (Flat.column_lineage nodes catalog)
             (Targeted.all_column_lineage nodes catalog).
Proof.
  intros Hkeys Hdeps Hcols.
  assert (H : same_maps (Flat.column_lineage nodes catalog)
                        (Targeted.all_column_lineage nodes catalog)).
  { unfold Flat.column_lineage, Targeted.all_column_lineage.
    apply lockstep_node_loop;
      [now apply model_columns_nodup|assumption|assumption| |].
    - intros m. reflexivity.
    - intros m c u x He. now apply edge_empty in He. }
  split; [exact H|now apply same_maps_edges].
Qed.

Lemma mode_equivalence_witness :
  same_maps (Flat.column_lineage Scenario.unlinked_nodes
               Scenario.unlinked_catalog)
            (Targeted.all_column_lineage Scenario.unlinked_nodes
               Scenario.unlinked_catalog) /\
  same_edges (Flat.column_lineage Scenario.unlinked_nodes
                Scenario.unlinked_catalog)
             (Targeted.all_column_lineage Scenario.unlinked_nodes
                Scenario.unlinked_catalog).
Proof.
  apply (@mode_equivalence Scenario.unlinked_nodes Scenario.unlinked_catalog).
  - simpl. repeat constructor. simpl. tauto.
  - intros name nd [H|[]]. injection H as <- <-. simpl.
    repeat constructor. simpl. tauto.
  - intros x cn [H|[H|[]]]; injection H as <- <-; simpl;
      repeat constructor; simpl; tauto.
Defined.

(** Whatever the input, the two modes record the same entries; they can
    differ in how often a list repeats an upstream column and in the
    models with an empty column map. *)
Section SameEdges.
Variable mc : odict (list string).

Lemma same_edges_record F T n own d col :
  contains F n = true -> same_edges F T ->
  same_edges (Flat.record F n own d col) (Targeted.record T n own d col).
Proof.
  intros Hc H m c u x. unfold edge.
  rewrite targeted_record_cols, flat_record_cols, Hc. simpl.
  destruct (String.eqb m n && String.eqb c own && String.eqb u d);
    [|apply H].
  simpl. specialize (H m c u). unfold edge in H.
  destruct (str_in col (upstream_cols T m c u)) eqn:E.
  - apply str_in_In in E. rewrite in_app_iff. simpl. rewrite H.
    split; [tauto|]. intros [Hx|[<-|[]]]; [assumption|]. now apply H.
  - rewrite !in_app_iff. simpl. rewrite H. tauto.
Qed.

Lemma fold_left_rel (A A' B : Type) (R : A -> A' -> Prop)
    (f : A -> B -> A) (f' : A' -> B -> A') (l : list B) :
  forall a a',
    R a a' ->
    (forall a a' x, In x l -> R a a' -> R (f a x) (f' a' x)) ->
    R (fold_left f l a) (fold_left f' l a').
Proof.
  induction l as [|x l IH]; simpl; intros a a' Ha Hstep; [assumption|].
  apply IH.
  - apply Hstep; [now left|assumption].
  - intros b b' y Hy. apply Hstep. now right.
Qed.

Lemma same_edges_node_step F T entry :
  same_edges F T ->
  same_edges (Flat.node_step mc F entry) (Targeted.node_step mc T entry).
Proof.
  destruct entry as [name nd]. intros H.
  unfold Flat.node_step, Targeted.node_step.
  destruct (is_model (resource_type nd)); [|exact H].
  destruct (String.eqb (compiled_sql nd) ""); [exact H|].
  destruct (get mc name) as [model_cols|]; [|exact H].
  apply fold_left_rel; [exact H|].
  clear F T H. intros F T d _ H. unfold Flat.dep_step, Targeted.dep_step.
  destruct (get mc d) as [dep_cols|]; [|exact H].
  apply fold_left_rel; [exact H|].
  clear F T H. intros F T col _ H. unfold Flat.col_step, Targeted.col_step.
  destruct (present (compiled_sql nd) col); [|exact H].
  apply (@fold_left_rel _ _ _
           (fun F T => contains F name = true /\ same_edges F T)).
  - split; [apply contains_setdefault_same|].
    intros m c u x. unfold edge. rewrite upstream_cols_setdefault. apply H.
  - clear F T H. intros F T own _ [Hc H].
    unfold Flat.own_step, Targeted.own_step.
    destruct (linked (compiled_sql nd) own col); [|now split].
    split; [|now apply same_edges_record].
    unfold Flat.record. now rewrite contains_upd.
Qed.
End SameEdges.

Lemma modes_have_same_edges nodes catalog :
  same_edges (Flat.column_lineage nodes catalog)
             (Targeted.all_column_lineage nodes catalog).
Proof.
  unfold Flat.column_lineage, Targeted.all_column_lineage.
  apply fold_left_rel.
  - intros m c u x. tauto.
  - intros F T entry _ H. now apply same_edges_node_step.
Qed.

(** * Further properties of the edge inference *)

Lemma fold_left_reach (A B : Type) (Q : A -> Prop) (f : A -> B -> A)
    (l : list B) (x : B) :
  In x l ->
  (forall a, Q (f a x)) ->
  (forall a y, Q a -> Q (f a y)) ->
  forall a, Q (fold_left f l a).
Proof.
  intros Hin Hx Hkeep. induction l as [|y l IH]; simpl; [contradiction|].
  intros a. destruct Hin as [->|Hin].
  - apply fold_left_inv; [apply Hx|]. intros a' z _. apply Hkeep.
  - now apply IH.
Qed.

Lemma targeted_record_mono g n mc d col m c u x :
  edge g m c u x -> edge (Targeted.record g n mc d col) m c u x.
Proof.
  unfold edge. rewrite targeted_record_cols.
  destruct (String.eqb m n && String.eqb c mc && String.eqb u d); [|tauto].
  simpl. destruct (str_in col (upstream_cols g m c u)); [tauto|].
  rewrite in_app_iff. tauto.
Qed.

Lemma targeted_record_adds g n mc d col :
  edge (Targeted.record g n mc d col) n mc d col.
Proof.
  unfold edge. rewrite targeted_record_cols, !String.eqb_refl. simpl.
  destruct (str_in col (upstream_cols g n mc d)) eqn:E.
  - now apply str_in_In.
  - rewrite in_app_iff. right. now left.
Qed.

Section TargetedMono.
Variable mc : odict (list string).
Variables m c u x : string.

Lemma targeted_own_step_mono sql n d col g own :
  edge g m c u x -> edge (Targeted.own_step sql n d col g own) m c u x.
Proof.
  unfold Targeted.own_step. destruct (linked sql own col); [|tauto].
  apply targeted_record_mono.
Qed.

Lemma targeted_col_step_mono sql n model_cols d g col :
  edge g m c u x -> edge (Targeted.col_step sql n model_cols d g col) m c u x.
Proof.
  unfold Targeted.col_step. destruct (present sql col); [|tauto].
  intros H. apply fold_left_inv; [exact H|].
  intros g' own _. apply targeted_own_step_mono.
Qed.

Lemma targeted_dep_step_mono sql n model_cols g d :
  edge g m c u x -> edge (Targeted.dep_step mc sql n model_cols g d) m c u x.
Proof.
  unfold Targeted.dep_step. destruct (get mc d); [|tauto].
  intros H. apply fold_left_inv; [exact H|].
  intros g' col _. apply targeted_col_step_mono.
Qed.

Lemma targeted_node_step_mono g entry :
  edge g m c u x -> edge (Targeted.node_step mc g entry) m c u x.
Proof.
  destruct entry as [name nd]. unfold Targeted.node_step.
  destruct (is_model (resource_type nd)); [|tauto].
  destruct (String.eqb (compiled_sql nd) ""); [tauto|].
  destruct (get mc name); [|tauto].
  intros H. apply fold_left_inv; [exact H|].
  intros g' d _. apply targeted_dep_step_mono.
Qed.
End TargetedMono.

Lemma targeted_complete nodes catalog m c u uc :
  provenance nodes catalog m c u uc ->
  edge (Targeted.all_column_lineage nodes catalog) m c u uc.
Proof.
  intros (n & mcols & ucols & Hn & Hkind & Hsql & Hdep & Hm & Hc & Hu & Huc
          & Hgate & Hlink).
  unfold Targeted.all_column_lineage.
  apply fold_left_reach with (x := (m, n)); [exact Hn| |].
  2:{ intros a y. apply targeted_node_step_mono. }
  intros a. unfold Targeted.node_step. rewrite Hkind, Hm.
  destruct (String.eqb_spec (compiled_sql n) ""); [contradiction|].
  apply fold_left_reach with (x := u); [exact Hdep| |].
  2:{ intros a' y. apply targeted_dep_step_mono. }
  intros a'. unfold Targeted.dep_step. rewrite Hu.
  apply fold_left_reach with (x := uc); [exact Huc| |].
  2:{ intros a'' y. apply targeted_col_step_mono. }
  intros a''. unfold Targeted.col_step. rewrite Hgate.
  apply fold_left_reach with (x := c); [exact Hc| |].
  2:{ intros b y. apply targeted_own_step_mono. }
  intros b. unfold Targeted.own_step. rewrite Hlink.
  apply targeted_record_adds.
Qed.

(** X1.  What is recorded, exactly: [(m, c, u, uc)] is an entry of the
    graph, in either mode, if and only if the manifest has a node [m] of
    kind model with compiled text that lists [u] as a dependency, [c] is
    a column of [m] and [uc] a column of [u] in [model_columns], [uc]
    passes the presence gate and one of the two own-column patterns
    matches for [c] and [uc]. *)
Theorem edge_characterization nodes catalog m c u uc :
  (edge (Flat.column_lineage nodes catalog) m c u uc <->
   provenance nodes catalog m c u uc) /\
  (edge (Targeted.all_column_lineage nodes catalog) m c u uc <->
   provenance nodes catalog m c u uc).
Proof.
  split; split.
  - apply flat_sourced.
  - intros H. apply modes_have_same_edges. now apply targeted_complete.
  - apply targeted_sourced.
  - apply targeted_complete.
Qed.

(** X2.  Skip rules: a model whose manifest nodes are not of kind model or
    have no compiled text, or that has no table/view entry in the catalog,
    has no entry in the graph of either mode; and a dependency without a
    table/view entry in the catalog is the upstream side of no entry. *)
Theorem skipped_models_have_no_edges nodes catalog m u :
  (forall n, In (m, n) nodes ->
     is_model (resource_type n) = false \/ compiled_sql n = "") \/
  get (model_columns catalog) m = None \/
  get (model_columns catalog) u = None ->
  forall c uc,
    ~ edge (Flat.column_lineage nodes catalog) m c u uc /\
    ~ edge (Targeted.all_column_lineage nodes catalog) m c u uc.
Proof.
  intros Hskip c uc.
  assert (H : ~ provenance nodes catalog m c u uc).
  { intros (n & mcols & ucols & Hn & Hkind & Hsql & _ & Hm & _ & Hu & _).
    destruct Hskip as [Hnode|[Hcat|Hcat]]; [|congruence..].
    destruct (Hnode n Hn); congruence. }
  split; intros He; apply H.
  - now apply flat_sourced.
  - now apply targeted_sourced.
Qed.

Lemma skipped_models_have_no_edges_witness :
  ~ edge (Flat.column_lineage Scenario.aliasing_nodes
            Scenario.aliasing_catalog)
      "order_summary" "total" "customers" "id" /\
  ~ edge (Targeted.all_column_lineage Scenario.aliasing_nodes
            Scenario.aliasing_catalog)
      "order_summary" "total" "customers" "id".
Proof.
  apply (@skipped_models_have_no_edges Scenario.aliasing_nodes
           Scenario.aliasing_catalog "order_summary" "customers").
  right. right. vm_compute. reflexivity.
Defined.

Lemma same_maps_cols F T m c u :
  same_maps F T -> upstream_cols T m c u = upstream_cols F m c u.
Proof.
  intros H. unfold upstream_cols. rewrite (H m).
  destruct (get F m) as [[|e cols]|]; reflexivity.
Qed.

(** X3.  No list of the targeted graph holds an upstream column twice,
    whatever the input; and the flat mode repeats a column only when the
    input repeats something: with unique manifest keys, dependency lists
    without repeated identifiers and catalog entries without repeated
    column names, no list of the flat graph holds a column twice. *)
Theorem no_duplicate_upstream_columns nodes catalog m c u :
  NoDup (upstream_cols (Targeted.all_column_lineage nodes catalog) m c u) /\
  (NoDup (keys nodes) ->
   (forall name nd, In (name, nd) nodes -> NoDup (depends_on nd)) ->
   (forall x cn, In (x, cn) catalog -> NoDup (columns cn)) ->
   NoDup (upstream_cols (Flat.column_lineage nodes catalog) m c u)).
Proof.
  split; [apply targeted_no_duplicates|].
  intros Hkeys Hdeps Hcols.
  rewrite <- (@same_maps_cols _ (Targeted.all_column_lineage nodes catalog)).
  - apply targeted_no_duplicates.
  - unfold Flat.column_lineage, Targeted.all_column_lineage.
    apply lockstep_node_loop;
      [now apply model_columns_nodup|assumption|assumption| |].
    + intros x. reflexivity.
    + intros m' c' u' x He. now apply edge_empty in He.
Qed.

Lemma no_duplicate_upstream_columns_witness :
  NoDup (upstream_cols
           (Flat.column_lineage Scenario.aliasing_nodes
              Scenario.aliasing_catalog)
           "order_summary" "total" "raw_orders").
Proof.
  apply (proj2 (@no_duplicate_upstream_columns Scenario.aliasing_nodes
                  Scenario.aliasing_catalog "order_summary" "total"
                  "raw_orders")).
  - simpl. repeat constructor. simpl. tauto.
  - intros name nd [H|[]]. injection H as <- <-. simpl.
    repeat constructor. simpl. tauto.
  - intros x cn [H|[H|[]]]; injection H as <- <-; simpl;
      repeat constructor; simpl; intuition discriminate.
Defined.

(** * The catalog columns *)

Lemma get_not_in_keys (V : Type) (d : odict V) k :
  ~ In k (keys d) -> get d k = None.
Proof.
  induction d as [|[k' v] d IH]; simpl; [reflexivity|].
  intros H. destruct (String.eqb_spec k k') as [->|Hne].
  - exfalso. apply H. now left.
  - apply IH. intros Hin. apply H. now right.
Qed.

Lemma model_columns_fold catalog x :
  NoDup (keys catalog) ->
  forall acc,
    get (fold_left model_columns_step catalog acc) x =
    match get catalog x with
    | Some cn =>
        if is_table_or_view (cat_type cn) then Some (columns cn)
        else get acc x
    | None => get acc x
    end.
Proof.
  induction catalog as [|[k cn] rest IH]; intros Hnd acc; [reflexivity|].
  simpl in Hnd. inversion Hnd as [|a b Hk Hrest]; subst.
  simpl. rewrite (IH Hrest). unfold model_columns_step.
  destruct (String.eqb_spec x k) as [->|Hne].
  - rewrite (get_not_in_keys _ _ Hk).
    destruct (is_table_or_view (cat_type cn)); [apply get_set_same|].
    reflexivity.
  - destruct (is_table_or_view (cat_type cn)).
    + rewrite (get_set_other _ _ Hne). reflexivity.
    + reflexivity.
Qed.

(** X4.  [model_columns] holds exactly the catalog entries of kind table
    or view, each with its column names in catalog order: an entry of
    another kind, or without a kind, is as good as absent. *)
Theorem model_columns_exact catalog x :
  NoDup (keys catalog) ->
  get (model_columns catalog) x =
  match get catalog x with
  | Some cn =>
      if is_table_or_view (cat_type cn) then Some (columns cn) else None
  | None => None
  end.
Proof.
  intros Hnd. unfold model_columns.
  rewrite (@model_columns_fold catalog x Hnd). reflexivity.
Qed.

Lemma model_columns_exact_witness :
  get (model_columns Scenario.aliasing_catalog) "raw_orders" =
  match get Scenario.aliasing_catalog "raw_orders" with
  | Some cn =>
      if is_table_or_view (cat_type cn) then Some (columns cn) else None
  | None => None
  end.
Proof.
  apply (@model_columns_exact Scenario.aliasing_catalog "raw_orders").
  simpl. repeat constructor; simpl; intuition discriminate.
Defined.

(** * What the closures hold *)

Section InFacts.
Variable V : Type.
Implicit Types (d : odict V) (k : string) (v : V).

Lemma In_set d k0 v0 k v :
  In (k, v) (set d k0 v0) -> In (k, v) d \/ (k = k0 /\ v = v0).
Proof.
  induction d as [|[k' v'] d IH]; simpl.
  - intros [[= <- <-]|[]]. now right.
  - destruct (String.eqb_spec k0 k') as [->|Hne]; simpl.
    + intros [[= <- <-]|H]; [now right|left; now right].
    + intros [H|H]; [left; now left|].
      destruct (IH H) as [H'|H']; [left; now right|now right].
Qed.

Lemma In_setdefault d k0 v0 k v :
  In (k, v) (setdefault d k0 v0) -> In (k, v) d \/ (k = k0 /\ v = v0).
Proof.
  unfold setdefault. destruct (contains d k0); [now left|apply In_set].
Qed.

Lemma In_upd d k0 (f : V -> V) k v :
  In (k, v) (upd d k0 f) ->
  In (k, v) d \/ (k = k0 /\ exists v0, In (k0, v0) d /\ v = f v0).
Proof.
  unfold upd. destruct (get d k0) as [v0|] eqn:E; [|now left].
  intros H. apply In_set in H. destruct H as [H|[-> ->]]; [now left|].
  right. split; [reflexivity|]. exists v0. split; [now apply get_In|].
  reflexivity.
Qed.
End InFacts.

Lemma foldM_keeps (A B : Type) (P : A -> Prop) (f : A -> B -> option A)
    (l : list B) (a r : A) :
  P a ->
  (forall a x a', In x l -> P a -> f a x = Some a' -> P a') ->
  foldM f l a = Some r -> P r.
Proof.
  intros Ha Hstep Hr.
  apply (@foldM_post _ _ P (fun _ _ => True) f l a r) in Hr; [tauto|exact Ha|].
  intros a0 x a' Hin Ha0 Hf. split; [now apply (Hstep a0 x)|tauto].
Qed.

Lemma all_within_setdefault R m c r u :
  all_within R m c r -> all_within R m c (setdefault r u []).
Proof.
  intros H u' cols uc sub Hin Hsub. apply In_setdefault in Hin.
  destruct Hin as [Hin|[_ ->]]; [now apply (H u' cols)|contradiction].
Qed.

Lemma all_within_add R m c r u uc sub :
  all_within R m c r -> R m c u uc -> within R u uc sub ->
  all_within R m c (upd r u (fun d => set d uc sub)).
Proof.
  intros H HR Hsub u' cols uc' sub' Hin Hin'. apply In_upd in Hin.
  destruct Hin as [Hin|[-> (d0 & Hd0 & ->)]]; [now apply (H u' cols)|].
  apply In_set in Hin'. destruct Hin' as [Hin'|[-> ->]];
    [now apply (H u d0)|now split].
Qed.

Lemma upstream_within fuel :
  forall g m c v t v',
    get_upstream_lineage fuel g m c v = Some (t, v') ->
    within (feeds g) m c t.
Proof.
  induction fuel as [|fuel IH]; intros g m c v t v' H; [discriminate|].
  assert (Hempty : within (feeds g) m c (Clo [])).
  { constructor. intros u cols uc sub []. }
  simpl in H. destruct (vmem (m, c) v); [now injection H as <- _|].
  destruct (get g m) as [cols|] eqn:Em; [|now injection H as <- _].
  destruct (get cols c) as [ups|] eqn:Ec; [|now injection H as <- _].
  match type of H with
  | option_map _ (foldM ?f ups ?a) = _ =>
      destruct (foldM f ups a) as [st|] eqn:E; [|simpl in H; discriminate]
  end.
  simpl in H. injection H as <- _. constructor.
  change (all_within (feeds g) m c (fst st)).
  apply foldM_keeps with (P := fun st => all_within (feeds g) m c (fst st))
    in E; [exact E|intros u cols' uc sub []|].
  intros a [u l] a' Hu Ha Hbody.
  apply foldM_keeps with (P := fun st => all_within (feeds g) m c (fst st))
    in Hbody; [exact Hbody|now apply all_within_setdefault|].
  intros s uc s' Huc Hs Hstep. cbv beta in Hstep.
  destruct (get_upstream_lineage fuel g u uc (snd s)) as [[sub w]|] eqn:Erec;
    [|discriminate].
  injection Hstep as <-. simpl. apply all_within_add; [exact Hs| |].
  - unfold feeds. eapply in_edges; eauto using get_In.
  - eapply IH. exact Erec.
Qed.

Lemma downstream_within fuel :
  forall g m c v t v',
    get_downstream_lineage fuel g m c v = Some (t, v') ->
    within (fed_by g) m c t.
Proof.
  induction fuel as [|fuel IH]; intros g m c v t v' H; [discriminate|].
  simpl in H. destruct (vmem (m, c) v).
  { injection H as <- _. constructor. intros u cols uc sub []. }
  match type of H with
  | option_map _ (foldM ?f g ?a) = _ =>
      destruct (foldM f g a) as [st|] eqn:E; [|simpl in H; discriminate]
  end.
  simpl in H. injection H as <- _. constructor.
  change (all_within (fed_by g) m c (fst st)).
  apply foldM_keeps with (P := fun st => all_within (fed_by g) m c (fst st))
    in E; [exact E|intros u cols' uc sub []|].
  intros a [dn columns] a' Hdn Ha Hcols.
  apply foldM_keeps with (P := fun st => all_within (fed_by g) m c (fst st))
    in Hcols; [exact Hcols|exact Ha|].
  intros b [dc ups] b' Hdc Hb Hups.
  apply foldM_keeps with (P := fun st => all_within (fed_by g) m c (fst st))
    in Hups; [exact Hups|exact Hb|].
  intros s [un l] s' Hun Hs Hstep. cbv beta iota in Hstep.
  destruct (String.eqb_spec un m) as [->|Hne]; simpl in Hstep;
    [|now injection Hstep as <-].
  destruct (str_in c l) eqn:Ein; [|now injection Hstep as <-].
  destruct (contains2 (setdefault (fst s) dn []) dn dc).
  { injection Hstep as <-. simpl. now apply all_within_setdefault. }
  destruct (get_downstream_lineage fuel g dn dc (snd s)) as [[sub w]|]
    eqn:Erec; [|discriminate].
  injection Hstep as <-. simpl.
  apply all_within_add; [now apply all_within_setdefault| |].
  - unfold fed_by. apply str_in_In in Ein. eapply in_edges; eassumption.
  - eapply IH. exact Erec.
Qed.


(** * The targeted run, continued *)

Lemma contains_set (V : Type) (d : odict V) k k' (v : V) :
  contains (set d k v) k' = String.eqb k' k || contains d k'.
Proof.
  unfold contains. rewrite get_set. now destruct (String.eqb k' k).
Qed.

(** X5.  The lineage of a run has one root per catalog column of the
    target, with or without relatives, and nothing else: it is empty when
    the target has no table/view entry in the catalog, and otherwise
    holds the one key of the target, whose columns are the catalog
    columns; the closure stored for a column is the one the traversal
    from that column returns when started with an empty visited set. *)
Theorem lineage_roots
    (closure_of : string -> string -> vset -> option (closure * vset))
    (mc : odict (list string)) (target : string) (lin : lineage) :
  build_lineage closure_of mc target = Some lin ->
  match get mc target with
  | None => lin = []
  | Some cols =>
      exists d, lin = [(target, d)] /\
        (forall c, contains d c = true <-> In c cols) /\
        (forall c t, get d c = Some t ->
           exists v, closure_of target c [] = Some (t, v))
  end.
Proof.
  unfold build_lineage. destruct (get mc target) as [cols|];
    [|now intros [= <-]].
  destruct (root_closures closure_of target cols) as [d|] eqn:E;
    [|discriminate].
  intros [= <-]. exists d. split; [reflexivity|].
  unfold root_closures in E.
  assert (H : forall d0 d1,
            foldM (fun (d : odict closure) column =>
                     match closure_of target column [] with
                     | Some (t, _) => Some (set d column t)
                     | None => None
                     end) cols d0 = Some d1 ->
            (forall c, contains d1 c = true <->
                       contains d0 c = true \/ In c cols) /\
            ((forall c t, get d0 c = Some t ->
                exists v, closure_of target c [] = Some (t, v)) ->
             forall c t, get d1 c = Some t ->
                exists v, closure_of target c [] = Some (t, v))).
  { clear E d. induction cols as [|col cols IH]; simpl; intros d0 d1 Hd.
    - injection Hd as <-. split; [intros c; tauto|auto].
    - destruct (closure_of target col []) as [[t v]|] eqn:Ecol;
        [|discriminate].
      destruct (IH _ _ Hd) as [Hkeys Hvals]. split.
      + intros c. rewrite Hkeys, contains_set.
        destruct (String.eqb_spec c col) as [->|Hne]; simpl; [tauto|].
        split; [tauto|]. intros [H|[H|H]]; auto; congruence.
      + intros H0. apply Hvals. intros c t'. rewrite get_set.
        destruct (String.eqb_spec c col) as [->|Hne]; [|apply H0].
        intros [= <-]. now exists v. }
  destruct (H [] d E) as [Hkeys Hvals]. split.
  - intros c. rewrite Hkeys. unfold contains. simpl. split; [|tauto].
    intros [Hc|Hc]; [discriminate|assumption].
  - apply Hvals. intros c t Hc. discriminate.
Qed.

Lemma lineage_roots_witness :
  match get (model_columns Scenario.aliasing_catalog) "order_summary" with
  | None =>
      [("order_summary",
        [("order_id", Clo [("raw_orders", [("id", Clo [])])]);
         ("total",
          Clo [("raw_orders", [("id", Clo []); ("amount", Clo [])])])])]
      = []
  | Some cols =>
      exists d,
        [("order_summary",
          [("order_id", Clo [("raw_orders", [("id", Clo [])])]);
           ("total",
            Clo [("raw_orders", [("id", Clo []); ("amount", Clo [])])])])]
        = [("order_summary", d)] /\
        (forall c, contains d c = true <-> In c cols) /\
        (forall c t, get d c = Some t ->
           exists v,
             get_upstream_lineage 5
               (Targeted.all_column_lineage Scenario.aliasing_nodes
                  Scenario.aliasing_catalog) "order_summary" c []
             = Some (t, v))
  end.
Proof.
  apply (@lineage_roots
           (get_upstream_lineage 5
              (Targeted.all_column_lineage Scenario.aliasing_nodes
                 Scenario.aliasing_catalog))
           (model_columns Scenario.aliasing_catalog) "order_summary").
  vm_compute. reflexivity.
Defined.

(** X6.  Without a target (none given, or the empty string) the function
    exports nothing of the graph it builds: whatever the manifest and the
    catalog hold, it writes the two structured documents and the two
    tabular files of [all_models] with no lineage in them, raises nothing
    and returns two empty lineages. *)
Theorem untargeted_run_is_empty fuel nodes catalog target output_dir :
  requested target = None ->
  extract_model_column_lineage fuel nodes catalog target output_dir
  = empty_run output_dir "all_models".
Proof.
  intros H. unfold extract_model_column_lineage. rewrite H. reflexivity.
Qed.

Lemma untargeted_run_is_empty_witness :
  extract_model_column_lineage 0 Scenario.aliasing_nodes
    Scenario.aliasing_catalog (Some "") "out"
  = empty_run "out" "all_models".
Proof.
  apply (@untargeted_run_is_empty 0 Scenario.aliasing_nodes
           Scenario.aliasing_catalog (Some "") "out").
  reflexivity.
Defined.

(** X7.  A target that the manifest resolves and that has no table/view
    entry in the catalog gives a run with two empty lineages: the four
    files are written under the target's name, nothing is raised. *)
Theorem target_without_columns_is_empty fuel nodes catalog t name output_dir :
  t <> "" ->
  find_target nodes t = Some name ->
  get (model_columns catalog) name = None ->
  extract_model_column_lineage fuel nodes catalog (Some t) output_dir
  = empty_run output_dir t.
Proof.
  intros Ht Hfind Hcols. unfold extract_model_column_lineage, requested.
  destruct (String.eqb_spec t "") as [|_]; [contradiction|].
  rewrite Hfind. unfold build_lineage. rewrite Hcols. reflexivity.
Qed.

Lemma target_without_columns_is_empty_witness :
  extract_model_column_lineage 0
    [("proj.staging", mk_node (Some "model") "select 1" [])]
    Scenario.aliasing_catalog (Some "staging") "out"
  = empty_run "out" "staging".
Proof.
  apply (@target_without_columns_is_empty 0
           [("proj.staging", mk_node (Some "model") "select 1" [])]
           Scenario.aliasing_catalog "staging" "proj.staging" "out").
  - discriminate.
  - vm_compute. reflexivity.
  - vm_compute. reflexivity.
Defined.

(** X8.  Flattening the relatives of a model that is no key of the
    lineage raises [KeyError] for that model as soon as there is a row to
    write: exactly one row is added, then the lookup of the model fails.
    In a targeted run the lineage has the target as its only key, so this
    is what happens at the second hop through any other model. *)
Theorem flatten_raises_for_unknown_model fuel lin model column related rows :
  get lin model = None ->
  (exists rm rcols, In (rm, rcols) (closure_dict related) /\ rcols <> []) ->
  exists r,
    flatten (S fuel) lin model column related rows
    = (rows ++ [r], Raise (KeyError model)).
Proof.
  intros Hmodel. simpl. generalize rows.
  induction (closure_dict related) as [|[rm rcols] l IH];
    intros rows0 (rm' & rcols' & Hin & Hne); [contradiction|].
  destruct rcols as [|[rc sub] rcols].
  - simpl. unfold bind at 1. simpl. apply IH.
    destruct Hin as [[= <- <-]|Hin]; [congruence|eauto].
  - eexists. simpl. unfold bind, writerow, lookup. simpl.
    rewrite Hmodel. reflexivity.
Qed.

Lemma flatten_raises_for_unknown_model_witness :
  exists r,
    flatten 1 [("proj.t", [("c", Clo [("proj.u", [("x", Clo [])])])])]
      "proj.u" "x" (Clo [("proj.v", [("y", Clo [])])]) []
    = ([] ++ [r], Raise (KeyError "proj.u")).
Proof.
  apply (@flatten_raises_for_unknown_model 0
           [("proj.t", [("c", Clo [("proj.u", [("x", Clo [])])])])]
           "proj.u" "x" (Clo [("proj.v", [("y", Clo [])])]) []).
  - reflexivity.
  - exists "proj.v", [("y", Clo [])]. split; [now left|discriminate].
Defined.

(** * Last segments and the target *)

Lemma has_dot_app a b : has_dot (a ++ b) = has_dot a || has_dot b.
Proof.
  induction a as [|ch a IH]; simpl; [reflexivity|].
  rewrite IH. apply orb_assoc.
Qed.

Lemma string_app_assoc (a b c : string) :
  ((a ++ b) ++ c = a ++ (b ++ c))%string.
Proof. induction a as [|ch a IH]; simpl; [reflexivity|now rewrite IH]. Qed.

Lemma string_app_empty (a : string) : (a ++ "" = a)%string.
Proof. induction a as [|ch a IH]; simpl; [reflexivity|now rewrite IH]. Qed.

Lemma last_segment_from_no_dot s :
  has_dot s = false ->
  forall acc, last_segment_from acc s = (acc ++ s)%string.
Proof.
  induction s as [|ch s IH]; simpl; intros H acc.
  - now rewrite string_app_empty.
  - apply orb_false_iff in H. destruct H as [Hch Hs]. rewrite Hch.
    rewrite (IH Hs). now rewrite string_app_assoc.
Qed.

Lemma last_segment_from_after_dot p s :
  forall acc,
    last_segment_from acc (p ++ String "."%char s) = last_segment_from "" s.
Proof.
  induction p as [|ch p IH]; simpl; intros acc; [reflexivity|].
  destruct (Ascii.eqb ch "."%char); apply IH.
Qed.

Lemma last_segment_from_has_no_dot s :
  forall acc, has_dot acc = false ->
    has_dot (last_segment_from acc s) = false.
Proof.
  induction s as [|ch s IH]; simpl; intros acc Hacc; [assumption|].
  destruct (Ascii.eqb ch "."%char) eqn:E.
  - now apply IH.
  - apply IH. rewrite has_dot_app, Hacc. simpl. now rewrite E.
Qed.

(** X10.  [split('.')[-1]]: the last segment of a name is what follows its
    last dot; a name without a dot is its own last segment, whatever is
    put before it with a dot, and a last segment never has a dot. *)
Theorem last_segment_spec p s :
  has_dot s = false ->
  last_segment s = s /\
  last_segment (p ++ "." ++ s) = s /\
  has_dot (last_segment p) = false.
Proof.
  intros Hs. unfold last_segment. repeat split.
  - now rewrite last_segment_from_no_dot.
  - change ("." ++ s)%string with (String "."%char s).
    rewrite last_segment_from_after_dot. now rewrite last_segment_from_no_dot.
  - now apply last_segment_from_has_no_dot.
Qed.

Lemma last_segment_spec_witness :
  last_segment "orders" = "orders" /\
  last_segment ("model.shop" ++ "." ++ "orders") = "orders" /\
  has_dot (last_segment "model.shop") = false.
Proof.
  apply (@last_segment_spec "model.shop" "orders"). reflexivity.
Defined.

(** X11.  Target resolution takes the first manifest node, in manifest
    order, whose last segment is the target name: the node it returns has
    that last segment and no node before it has; it returns nothing
    exactly when no node has it. *)
Theorem find_target_spec nodes t :
  match find_target nodes t with
  | Some name =>
      exists before n after,
        nodes = before ++ (name, n) :: after /\
        last_segment name = t /\
        forall k, In k (keys before) -> last_segment k <> t
  | None => forall k, In k (keys nodes) -> last_segment k <> t
  end.
Proof.
  induction nodes as [|[name n] nodes IH]; simpl; [tauto|].
  destruct (String.eqb_spec (last_segment name) t) as [Heq|Hne].
  - exists [], n, nodes. simpl. repeat split; [assumption|tauto].
  - destruct (find_target nodes t) as [name'|].
    + destruct IH as (before & n' & after & -> & Hlast & Hbefore).
      exists ((name, n) :: before), n', after. simpl.
      repeat split; [assumption|].
      intros k [<-|Hk]; [assumption|now apply Hbefore].
    + intros k [<-|Hk]; [assumption|now apply IH].
Qed.

(** * The file search of the lint wrapper *)

Lemma starts_with_sql_no_dot ch s :
  Ascii.eqb ch "."%char = false ->
  Lint.starts_with ".sql" (String ch s) = false.
Proof.
  intros H.
  change (Lint.starts_with ".sql" (String ch s))
    with (Ascii.eqb "."%char ch && Lint.starts_with "sql" s).
  rewrite Ascii.eqb_sym, H. reflexivity.
Qed.

Lemma replace_sql_prefix a b :
  has_dot a = false ->
  Lint.replace ".sql" "" (a ++ ".sql" ++ b)
  = (a ++ Lint.replace ".sql" "" b)%string.
Proof.
  unfold Lint.replace. induction a as [|ch a IH]; intros H.
  - reflexivity.
  - simpl in H. apply orb_false_iff in H. destruct H as [Hch Ha].
    change ((String ch a ++ ".sql" ++ b)%string)
      with (String ch (a ++ ".sql" ++ b)%string).
    cbn [Lint.replace_from]. rewrite (@starts_with_sql_no_dot ch _ Hch).
    cbn [String.append]. f_equal. now apply IH.
Qed.

Lemma replace_sql_no_dot a :
  has_dot a = false -> Lint.replace ".sql" "" a = a.
Proof.
  unfold Lint.replace. induction a as [|ch a IH]; intros H; [reflexivity|].
  simpl in H. apply orb_false_iff in H. destruct H as [Hch Ha].
  cbn [Lint.replace_from]. rewrite (@starts_with_sql_no_dot ch _ Hch).
  f_equal. now apply IH.
Qed.

(** X12.  The wrapper accepts a file name with or without the extension:
    for a name without a dot, searching for [name.sql] is searching for
    [name]; and the extension is removed wherever it stands, not only at
    the end of the name. *)
Theorem find_sql_file_extension walk name rest :
  has_dot name = false ->
  Lint.find_sql_file walk (name ++ ".sql") = Lint.find_sql_file walk name /\
  Lint.replace ".sql" "" (name ++ ".sql" ++ rest)
  = (name ++ Lint.replace ".sql" "" rest)%string.
Proof.
  intros H. split; [|now apply replace_sql_prefix].
  unfold Lint.find_sql_file.
  replace (name ++ ".sql")%string with (name ++ ".sql" ++ "")%string
    by reflexivity.
  rewrite (@replace_sql_prefix name "" H), (@replace_sql_no_dot name H).
  change (Lint.replace ".sql" "" "") with "".
  now rewrite string_app_empty.
Qed.

Lemma find_sql_file_extension_witness :
  Lint.find_sql_file [(".", ["readme"]); ("./models", ["orders.sql"])]
    ("orders" ++ ".sql")
  = Lint.find_sql_file [(".", ["readme"]); ("./models", ["orders.sql"])]
      "orders" /\
  Lint.replace ".sql" "" ("orders" ++ ".sql" ++ "ite")
  = ("orders" ++ Lint.replace ".sql" "" "ite")%string.
Proof.
  apply (@find_sql_file_extension
           [(".", ["readme"]); ("./models", ["orders.sql"])] "orders" "ite").
  reflexivity.
Defined.

Lemma first_match_spec patterns files :
  match Lint.first_match patterns files with
  | Some file =>
      In file files /\
      exists before after,
        patterns = before ++ file :: after /\
        forall p, In p before -> ~ In p files
  | None => forall p, In p patterns -> ~ In p files
  end.
Proof.
  induction patterns as [|p patterns IH]; simpl; [tauto|].
  destruct (str_in p files) eqn:E.
  - split; [now apply str_in_In|]. exists [], patterns. simpl. tauto.
  - assert (Hp : ~ In p files)
      by (intros H; apply str_in_In in H; congruence).
    destruct (Lint.first_match patterns files) as [file|].
    + destruct IH as [Hin (before & after & -> & Hbefore)].
      split; [assumption|]. exists (p :: before), after. simpl.
      split; [reflexivity|]. intros q [<-|Hq]; [assumption|now apply Hbefore].
    + intros q [<-|Hq]; [assumption|now apply IH].
Qed.

(** X13.  The search returns a file of the first directory of the walk
    that holds a file named [base.sql] or [base], where [base] is the
    given name with [.sql] removed; in that directory [base.sql] is
    preferred to [base]; and it returns nothing exactly when no directory
    holds either name. *)
Theorem find_sql_file_spec walk filename :
  let base := Lint.replace ".sql" "" filename in
  let absent (files : list string) :=
    ~ In (base ++ ".sql")%string files /\ ~ In base files in
  match Lint.find_sql_file walk filename with
  | Some (root, file) =>
      exists before files after,
        walk = before ++ (root, files) :: after /\
        In file files /\
        (file = (base ++ ".sql")%string \/
         (file = base /\ ~ In (base ++ ".sql")%string files)) /\
        forall r fs, In (r, fs) before -> absent fs
  | None => forall r fs, In (r, fs) walk -> absent fs
  end.
Proof.
  intros base absent. unfold Lint.find_sql_file. fold base.
  induction walk as [|[root files] walk IH]; [simpl; tauto|].
  cbn [Lint.search].
  pose proof (first_match_spec [(base ++ ".sql")%string; base] files) as Hm.
  destruct (Lint.first_match [(base ++ ".sql")%string; base] files)
    as [file|].
  - destruct Hm as [Hin (before & after & Hpat & Hbefore)]. cbv iota beta.
    exists [], files, walk. simpl.
    split; [reflexivity|]. split; [assumption|]. split; [|intros r fs []].
    destruct before as [|p before]; simpl in Hpat.
    + left. now injection Hpat as <-.
    + right. injection Hpat as <- Hpat.
      assert (Hfirst : ~ In (base ++ ".sql")%string files)
        by (apply Hbefore; now left).
      destruct before as [|q before]; simpl in Hpat.
      * injection Hpat as <-. now split.
      * injection Hpat as _ Hpat. destruct before; discriminate.
  - cbv iota beta. assert (Habs : absent files).
    { split; apply Hm; simpl; tauto. }
    destruct (Lint.search [(base ++ ".sql")%string; base] walk)
      as [[root' file]|].
    + destruct IH as (before & files' & after & -> & Hin & Hfile & Hbefore).
      exists ((root, files) :: before), files', after. simpl.
      split; [reflexivity|]. split; [assumption|]. split; [assumption|].
      intros r fs [[= <- <-]|H]; [assumption|now apply (Hbefore r)].
    + intros r fs [[= <- <-]|H]; [assumption|now apply (IH r)].
Qed.

(** * The tables of the flat mode *)

Lemma upd_setdefault_ensure (V : Type) (d : odict V) k dflt (f : V -> V) :
  upd (setdefault d k dflt) k f = ensure_upd d k dflt f.
Proof.
  unfold setdefault, contains, upd.
  destruct (get d k) as [v0|] eqn:E.
  - rewrite E. induction d as [|[k' v] d IH]; simpl in *;
      [discriminate|].
    destruct (String.eqb k k'); [now injection E as ->|].
    now rewrite IH.
  - rewrite get_set_same.
    induction d as [|[k' v] d IH]; simpl in *.
    + now rewrite String.eqb_refl.
    + destruct (String.eqb k k') eqn:Ek; [discriminate|]. simpl.
      rewrite Ek. now rewrite IH.
Qed.

Lemma flat_map_ensure_upd (V R : Type) (h : string * V -> list R)
    (d : odict V) k dflt (f : V -> V) (extra : list R) :
  h (k, dflt) = [] ->
  (forall v, Permutation (h (k, f v)) (h (k, v) ++ extra)) ->
  Permutation (flat_map h (ensure_upd d k dflt f)) (flat_map h d ++ extra).
Proof.
  intros Hdflt Hf. induction d as [|[k' v] d IH]; simpl.
  - rewrite app_nil_r. specialize (Hf dflt). now rewrite Hdflt in Hf.
  - destruct (String.eqb_spec k k') as [<-|Hne]; simpl.
    + rewrite <- app_assoc.
      eapply Permutation_trans;
        [apply Permutation_app_tail, Hf|].
      rewrite <- !app_assoc. apply Permutation_app_head.
      apply Permutation_app_comm.
    + rewrite <- app_assoc. now apply Permutation_app_head.
Qed.

Lemma inverse_rows_record dl m c u uc :
  Permutation (inverse_rows (invert_record dl m c u uc))
              (inverse_rows dl ++ [inverted_row (m, c, u, uc)]).
Proof.
  unfold inverse_rows, invert_record. rewrite upd_setdefault_ensure.
  apply flat_map_ensure_upd; [reflexivity|].
  intros cols. rewrite upd_setdefault_ensure.
  apply flat_map_ensure_upd; [reflexivity|].
  intros l. rewrite map_app. apply Permutation_refl.
Qed.

Lemma fold_left_flat_map (A B C : Type) (f : A -> C -> A) (h : B -> list C)
    (l : list B) :
  forall a,
    fold_left f (flat_map h l) a
    = fold_left (fun a x => fold_left f (h x) a) l a.
Proof.
  induction l as [|x l IH]; simpl; intros a; [reflexivity|].
  now rewrite fold_left_app, IH.
Qed.

Lemma fold_left_map (A B C : Type) (f : A -> C -> A) (h : B -> C)
    (l : list B) :
  forall a, fold_left f (map h l) a = fold_left (fun a x => f a (h x)) l a.
Proof. induction l as [|x l IH]; simpl; intros a; [reflexivity|apply IH]. Qed.

Lemma fold_left_ext (A B : Type) (f f' : A -> B -> A) (l : list B) :
  (forall a x, f a x = f' a x) ->
  forall a, fold_left f l a = fold_left f' l a.
Proof.
  intros H. induction l as [|x l IH]; simpl; intros a; [reflexivity|].
  now rewrite H, IH.
Qed.

Lemma invert_edges g :
  invert g =
  fold_left (fun dl (e : string * string * string * string) =>
               match e with
               | (m, c, u, uc) => invert_record dl m c u uc
               end) (edges g) [].
Proof.
  unfold invert, edges. rewrite fold_left_flat_map.
  apply fold_left_ext. intros dl [m cols].
  rewrite fold_left_flat_map. apply fold_left_ext. intros dl1 [c ups].
  rewrite fold_left_flat_map. apply fold_left_ext. intros dl2 [u l].
  now rewrite fold_left_map.
Qed.

Lemma map_flat_map (A B C : Type) (f : B -> C) (h : A -> list B)
    (l : list A) :
  map f (flat_map h l) = flat_map (fun x => map f (h x)) l.
Proof.
  induction l as [|x l IH]; simpl; [reflexivity|].
  now rewrite map_app, IH.
Qed.

Lemma upstream_rows_edges g : upstream_rows g = map edge_row (edges g).
Proof.
  unfold upstream_rows, edges. rewrite map_flat_map.
  apply flat_map_ext. intros [m cols].
  rewrite map_flat_map. apply flat_map_ext. intros [c ups].
  rewrite map_flat_map. apply flat_map_ext. intros [u l].
  now rewrite map_map.
Qed.

Lemma inverse_rows_edges g :
  Permutation (downstream_rows g) (map inverted_row (edges g)).
Proof.
  unfold downstream_rows. rewrite invert_edges.
  change (map inverted_row (edges g))
    with (inverse_rows [] ++ map inverted_row (edges g)).
  generalize (@nil (string * odict (list (string * string)))) as dl.
  induction (edges g) as [|[[[m c] u] uc] es IH]; intros dl; simpl.
  - now rewrite app_nil_r.
  - eapply Permutation_trans; [apply IH|].
    eapply Permutation_trans;
      [apply Permutation_app_tail, inverse_rows_record|].
    now rewrite <- app_assoc.
Qed.

(** X14.  The two tables that a flat run writes say the same thing, for
    every manifest and catalog: after its header the upstream table has
    one row per entry of the returned graph, in graph order, and after
    its header the downstream table holds the same entries, each turned
    around (upstream model and column first), none lost and none added;
    so both tables have the same number of rows. *)
Theorem flat_tables_agree nodes catalog output_dir :
  let r := extract_column_lineage nodes catalog output_dir in
  let es := edges (flat_result r) in
  column_lineage_csv r
  = [Str "Model"; Str "Column"; Str "Upstream Model"; Str "Upstream Column"]
    :: map edge_row es /\
  (exists rows,
     downstream_lineage_csv r
     = [Str "Model"; Str "Column"; Str "Downstream Model";
        Str "Downstream Column"] :: rows /\
     Permutation rows (map inverted_row es)) /\
  List.length (downstream_lineage_csv r) = List.length (column_lineage_csv r).
Proof.
  intros r es. unfold r, es, extract_column_lineage. simpl.
  set (g := Flat.column_lineage nodes catalog).
  pose proof (inverse_rows_edges g) as Hperm.
  split; [now rewrite upstream_rows_edges|].
  split; [now exists (downstream_rows g)|].
  rewrite (Permutation_length Hperm), upstream_rows_edges.
  now rewrite !length_map.
Qed.

(** * The closures are complete *)

Lemma appearsb_iff x y d :
  appearsb x y (Clo d) = true <->
  exists k cols k2 sub,
    In (k, cols) d /\ In (k2, sub) cols /\
    ((k = x /\ k2 = y) \/ appearsb x y sub = true).
Proof.
  simpl. rewrite existsb_exists. split.
  - intros ([k cols] & Hin & H). simpl in H. apply existsb_exists in H.
    destruct H as ([k2 sub] & Hin2 & H). simpl in H.
    exists k, cols, k2, sub. repeat split; [assumption..|].
    apply orb_true_iff in H. destruct H as [H|H]; [left|now right].
    apply andb_true_iff in H. now rewrite !String.eqb_eq in H.
  - intros (k & cols & k2 & sub & Hin & Hin2 & H).
    exists (k, cols). split; [assumption|]. simpl.
    apply existsb_exists. exists (k2, sub). split; [assumption|]. simpl.
    apply orb_true_iff. destruct H as [[-> ->]|H]; [left|now right].
    now rewrite !String.eqb_refl.
Qed.

Section KeepFacts.
Variable V : Type.
Implicit Types (d : odict V) (k : string) (v : V).

Lemma set_absent d k v : get d k = None -> set d k v = d ++ [(k, v)].
Proof.
  induction d as [|[k' v'] d IH]; simpl; [reflexivity|].
  destruct (String.eqb k k'); [discriminate|].
  intros H. now rewrite IH.
Qed.

Lemma In_set_keep d k0 v0 k v :
  In (k, v) d -> In (k, v) (set d k0 v0) \/ (k = k0 /\ get d k0 = Some v).
Proof.
  induction d as [|[k' v'] d IH]; simpl; [tauto|].
  destruct (String.eqb_spec k0 k') as [->|Hne]; simpl.
  - intros [[= -> ->]|H]; [now right|left; now right].
  - intros [H|H]; [left; now left|].
    destruct (IH H) as [H'|H']; [left; now right|now right].
Qed.

Lemma In_setdefault_keep d k0 v0 e : In e d -> In e (setdefault d k0 v0).
Proof.
  unfold setdefault, contains. destruct (get d k0) eqn:E; [tauto|].
  rewrite (@set_absent d k0 v0 E). intros H. apply in_or_app. now left.
Qed.

Lemma In_upd_keep d k0 (f : V -> V) k v :
  In (k, v) d ->
  exists v', In (k, v') (upd d k0 f) /\
             (v' = v \/ (k = k0 /\ get d k0 = Some v /\ v' = f v)).
Proof.
  intros H. unfold upd. destruct (get d k0) as [v0|] eqn:E.
  - destruct (@In_set_keep d k0 (f v0) k v H) as [H'|[-> H']].
    + exists v. split; [assumption|now left].
    + exists (f v0). split; [apply get_In, get_set_same|].
      right. rewrite E in H'. injection H' as ->. auto.
  - exists v. split; [assumption|now left].
Qed.
End KeepFacts.

Lemma contains2_setdefault (V : Type) (r : odict (odict V)) u a b :
  contains2 (setdefault r u []) a b = contains2 r a b.
Proof.
  unfold contains2. rewrite get_setdefault.
  destruct (String.eqb_spec a u) as [->|Hne]; [|reflexivity].
  destruct (get r u); reflexivity.
Qed.

Lemma contains2_upd_set_eq (V : Type) (r : odict (odict V)) u uc
    (sub : V) a b :
  contains r u = true ->
  contains2 (upd r u (fun d => set d uc sub)) a b =
  (String.eqb a u && String.eqb b uc) || contains2 r a b.
Proof.
  unfold contains, contains2. rewrite get_upd.
  destruct (String.eqb_spec a u) as [->|Hne]; [|reflexivity].
  destruct (get r u) as [d|]; [|discriminate]. intros _.
  unfold option_map, contains. cbv beta iota. rewrite get_set.
  simpl. now destruct (String.eqb b uc).
Qed.

Lemma appears_setdefault r u x y :
  appearsb x y (Clo r) = true -> appearsb x y (Clo (setdefault r u [])) = true.
Proof.
  rewrite !appearsb_iff. intros (k & cols & k2 & sub & H & H2 & H3).
  exists k, cols, k2, sub. split; [now apply In_setdefault_keep|auto].
Qed.

Lemma appears_add_keep r u uc sub x y :
  contains2 r u uc = false ->
  appearsb x y (Clo r) = true ->
  appearsb x y (Clo (upd r u (fun d => set d uc sub))) = true.
Proof.
  intros Hfresh. rewrite !appearsb_iff.
  intros (k & cols & k2 & s & H & H2 & H3).
  destruct (@In_upd_keep _ r u (fun d => set d uc sub) k cols H)
    as (cols' & Hin & [->|(-> & Hget & ->)]).
  - exists k, cols, k2, s. auto.
  - exists u, (set cols uc sub), k2, s. split; [assumption|].
    split; [|assumption].
    unfold contains2, contains in Hfresh. rewrite Hget in Hfresh.
    destruct (get cols uc) eqn:E; [discriminate|].
    rewrite (@set_absent _ cols uc sub E). apply in_or_app. now left.
Qed.

Lemma appears_add_new r u uc sub x y :
  contains r u = true ->
  appearsb x y sub = true ->
  appearsb x y (Clo (upd r u (fun d => set d uc sub))) = true.
Proof.
  unfold contains. intros Hc Hsub. apply appearsb_iff.
  destruct (get r u) as [d|] eqn:E; [|discriminate].
  exists u, (set d uc sub), uc, sub. repeat split.
  - apply get_In. rewrite get_upd, String.eqb_refl, E. reflexivity.
  - apply get_In, get_set_same.
  - now right.
Qed.

Lemma vkey_dec (a b : vkey) : {a = b} + {a <> b}.
Proof.
  destruct (vkey_eqb a b) eqn:E.
  - left. now apply vkey_eqb_eq.
  - right. intros H. apply vkey_eqb_eq in H. congruence.
Qed.

Lemma In_vset_dec (k : vkey) (v : vset) : {In k v} + {~ In k v}.
Proof. apply in_dec, vkey_dec. Qed.

(** one more relative recorded in the result *)
Lemma covering_add R w0 r w u uc sub w' :
  covering R w0 r w ->
  contains r u = true -> contains2 r u uc = false ->
  covers R w u uc sub w' ->
  covering R w0 (upd r u (fun d => set d uc sub)) w'.
Proof.
  intros [Hincl Hcov] Hc Hfresh (Hww' & _ & Hnew). split.
  - eapply incl_tran; eassumption.
  - intros pm pc Hp Hp0 x y HR.
    destruct (In_vset_dec (pm, pc) w) as [Hold|Hfreshp].
    + destruct (Hcov pm pc Hold Hp0 x y HR) as [Ha Hin].
      split; [now apply appears_add_keep|now apply Hww'].
    + destruct (Hnew pm pc Hp Hfreshp x y HR) as [Ha Hin].
      split; [now apply appears_add_new|assumption].
Qed.

Lemma covering_setdefault R w0 r w u :
  covering R w0 r w -> covering R w0 (setdefault r u []) w.
Proof.
  intros [Hincl Hcov]. split; [assumption|].
  intros pm pc Hp Hp0 x y HR. destruct (Hcov pm pc Hp Hp0 x y HR).
  split; [now apply appears_setdefault|assumption].
Qed.

Lemma get_upstream_lineage_step fuel g n c v :
  get_upstream_lineage (S fuel) g n c v =
  if vmem (n, c) v then Some (Clo [], v)
  else
    match get g n with
    | None => Some (Clo [], (n, c) :: v)
    | Some cols =>
        match get cols c with
        | None => Some (Clo [], (n, c) :: v)
        | Some ups =>
            option_map (fun st => (Clo (fst st), snd st))
              (foldM (up_outer (get_upstream_lineage fuel g)) ups
                 ([], (n, c) :: v))
        end
    end.
Proof. reflexivity. Qed.

Section UpstreamComplete.
Variable g : graph.
Variable rec : string -> string -> vset -> option (closure * vset).
Hypothesis rec_covers :
  forall n c v t v', rec n c v = Some (t, v') -> covers (edge g) v n c t v'.
Variable w0 : vset.

Lemma up_inner_covers u l :
  NoDup l ->
  forall st st',
    contains (fst st) u = true ->
    covering (edge g) w0 (fst st) (snd st) ->
    (forall uc, In uc l -> contains2 (fst st) u uc = false) ->
    foldM (up_inner rec u) l st = Some st' ->
    covering (edge g) w0 (fst st') (snd st') /\
    incl (snd st) (snd st') /\
    (forall uc, In uc l ->
       contains2 (fst st') u uc = true /\ In (u, uc) (snd st')) /\
    (forall a b, contains2 (fst st') a b = true ->
       contains2 (fst st) a b = true \/ a = u) /\
    (forall a b, contains2 (fst st) a b = true ->
       contains2 (fst st') a b = true).
Proof.
  induction 1 as [|uc l Huc Hl IH]; intros st st' Hc Hcov Hfresh Hrun.
  - simpl in Hrun. injection Hrun as <-.
    split; [exact Hcov|]. split; [apply incl_refl|].
    split; [intros uc []|]. split; [intros a b H; now left|auto].
  - simpl in Hrun. unfold up_inner at 1 in Hrun.
    destruct (rec u uc (snd st)) as [[sub w1]|] eqn:Erec; [|discriminate].
    pose proof (rec_covers Erec) as Hsub.
    assert (Hnew : forall a b,
              contains2 (upd (fst st) u (fun d => set d uc sub)) a b =
              (String.eqb a u && String.eqb b uc) || contains2 (fst st) a b)
      by (intros a b; now apply contains2_upd_set_eq).
    destruct (IH (upd (fst st) u (fun d => set d uc sub), w1) st')
      as (Hcov' & Hincl & Hall & Hframe & Hgrow).
    { simpl. now rewrite contains_upd. }
    { simpl. eapply covering_add; try eassumption.
      apply Hfresh. now left. }
    { intros uc' Hin. simpl. rewrite Hnew, String.eqb_refl. simpl.
      destruct (String.eqb_spec uc' uc) as [->|_]; [contradiction|].
      apply Hfresh. now right. }
    { exact Hrun. }
    simpl in *. destruct Hsub as (Hww1 & Hroot & _).
    split; [exact Hcov'|]. split; [eapply incl_tran; eassumption|].
    split; [|split].
    + intros uc' [<-|Hin]; [|now apply Hall]. split.
      * apply Hgrow. rewrite Hnew, !String.eqb_refl. reflexivity.
      * now apply Hincl.
    + intros a b Hab. destruct (Hframe a b Hab) as [H|H]; [|now right].
      rewrite Hnew in H. apply orb_true_iff in H.
      destruct H as [H|H]; [right|now left].
      apply andb_true_iff in H. now apply String.eqb_eq.
    + intros a b Hab. apply Hgrow. rewrite Hnew, Hab. apply orb_true_r.
Qed.

Lemma up_outer_covers ups :
  NoDup (keys ups) ->
  (forall u l, In (u, l) ups -> NoDup l) ->
  forall st st',
    covering (edge g) w0 (fst st) (snd st) ->
    (forall u l b, In (u, l) ups -> contains2 (fst st) u b = false) ->
    foldM (up_outer rec) ups st = Some st' ->
    covering (edge g) w0 (fst st') (snd st') /\
    incl (snd st) (snd st') /\
    (forall u l uc, In (u, l) ups -> In uc l ->
       contains2 (fst st') u uc = true /\ In (u, uc) (snd st')) /\
    (forall a b, contains2 (fst st) a b = true ->
       contains2 (fst st') a b = true).
Proof.
  induction ups as [|[u l] ups IH]; intros Hkeys Hlists st st' Hcov Hfresh Hrun.
  - simpl in Hrun. injection Hrun as <-.
    split; [exact Hcov|]. split; [apply incl_refl|].
    split; [intros u l uc []|auto].
  - simpl in Hkeys. inversion Hkeys as [|a b Hu Hrest]; subst.
    simpl in Hrun.
    destruct (foldM (up_inner rec u) l (setdefault (fst st) u [], snd st))
      as [st1|] eqn:Einner; [|discriminate].
    destruct (@up_inner_covers u l (Hlists u l (or_introl eq_refl))
                (setdefault (fst st) u [], snd st) st1)
      as (Hcov1 & Hincl1 & Hall1 & Hframe1 & Hgrow1).
    { apply contains_setdefault_same. }
    { simpl. now apply covering_setdefault. }
    { intros uc _. simpl. rewrite contains2_setdefault.
      apply (Hfresh u l). now left. }
    { exact Einner. }
    simpl in *.
    destruct (IH Hrest (fun u' l' H => Hlists u' l' (or_intror H)) st1 st')
      as (Hcov' & Hincl' & Hall' & Hgrow'); [exact Hcov1| |exact Hrun|].
    { intros u' l' b' Hin.
      destruct (contains2 (fst st1) u' b') eqn:E; [|reflexivity].
      destruct (Hframe1 u' b' E) as [H| ->].
      - rewrite contains2_setdefault in H.
        rewrite (Hfresh u' l' b') in H; [discriminate|now right].
      - exfalso. apply Hu. unfold keys.
        change u with (fst (u, l')). now apply in_map. }
    split; [exact Hcov'|]. split; [eapply incl_tran; eassumption|].
    split.
    + intros u' l' uc [[= -> ->]|Hin] Huc; [|now apply (Hall' u' l')].
      destruct (Hall1 uc Huc) as [H1 H2]. split; [now apply Hgrow'|].
      now apply Hincl'.
    + intros a b Hab. apply Hgrow', Hgrow1.
      now rewrite contains2_setdefault.
Qed.
End UpstreamComplete.

Lemma upstream_covers fuel :
  forall g, tidy g ->
  forall n c v t v',
    get_upstream_lineage fuel g n c v = Some (t, v') ->
    covers (edge g) v n c t v'.
Proof.
  induction fuel as [|fuel IH]; intros g Htidy n c v t v' H; [discriminate|].
  rewrite get_upstream_lineage_step in H.
  destruct (vmem (n, c) v) eqn:Ev.
  { injection H as <- <-. split; [apply incl_refl|].
    split; [now apply vmem_In|]. intros pm pc Hp Hp'. contradiction. }
  assert (Hleaf : (forall u uc, ~ edge g n c u uc) ->
                  covers (edge g) v n c (Clo []) ((n, c) :: v)).
  { intros Hnone. split; [apply incl_tl, incl_refl|].
    split; [now left|].
    intros pm pc [[= <- <-]|Hp] Hp' u uc He; [|contradiction].
    now apply Hnone in He. }
  destruct (get g n) as [cols|] eqn:En.
  2:{ injection H as <- <-. apply Hleaf. intros u uc.
      unfold edge, upstream_cols. now rewrite En. }
  destruct (get cols c) as [ups|] eqn:Ec.
  2:{ injection H as <- <-. apply Hleaf. intros u uc.
      unfold edge, upstream_cols. now rewrite En, Ec. }
  clear Hleaf.
  destruct (foldM (up_outer (get_upstream_lineage fuel g)) ups
              ([], (n, c) :: v)) as [st|] eqn:E; [|discriminate].
  simpl in H. injection H as <- <-.
  destruct (Htidy n c cols ups En Ec) as [Hkeys Hlists].
  destruct (@up_outer_covers g (get_upstream_lineage fuel g)
              (IH g Htidy) ((n, c) :: v) ups Hkeys Hlists
              ([], (n, c) :: v) st)
    as ([Hincl Hcov] & _ & Hall & _); [|reflexivity|exact E|].
  { split; [apply incl_refl|]. intros pm pc Hp Hp'. contradiction. }
  simpl in *.
  split; [intros k Hk; apply Hincl; now right|].
  split; [apply Hincl; now left|].
  intros pm pc Hp Hp' u uc He.
  destruct (vkey_dec (pm, pc) (n, c)) as [[= -> ->]|Hne].
  - unfold edge, upstream_cols in He. rewrite En, Ec in He.
    destruct (get ups u) as [l|] eqn:Eu; [|contradiction].
    destruct (Hall u l uc (get_In _ _ Eu) He) as [H1 H2].
    split; [now apply contains2_appearsb|assumption].
  - apply (Hcov pm pc Hp); [|assumption].
    intros [H|H]; [now apply Hne|contradiction].
Qed.

Lemma reaches_covered R m c t v' :
  covers R [] m c t v' ->
  forall u uc, reaches R m c u uc ->
    appearsb u uc t = true /\ In (u, uc) v'.
Proof.
  intros (_ & Hroot & Hcov). induction 1 as [u uc H|p pc u uc _ [_ Hp] H].
  - now apply (Hcov m c).
  - now apply (Hcov p pc).
Qed.

(** the graph of the targeted mode is tidy *)
Section KeysFacts.
Variable V : Type.
Implicit Types (d : odict V) (k : string) (v : V).

Lemma keys_set d k v :
  keys (set d k v) = if contains d k then keys d else keys d ++ [k].
Proof.
  unfold contains, keys. induction d as [|[k' v'] d IH]; simpl; [reflexivity|].
  destruct (String.eqb k k'); simpl; [reflexivity|].
  rewrite IH. now destruct (get d k).
Qed.

Lemma get_none_not_in_keys d k : get d k = None -> ~ In k (keys d).
Proof.
  induction d as [|[k' v'] d IH]; simpl; [tauto|].
  destruct (String.eqb_spec k k') as [->|Hne]; [discriminate|].
  intros H [Heq|Hin]; [congruence|now apply IH].
Qed.

Lemma nodup_keys_set d k v : NoDup (keys d) -> NoDup (keys (set d k v)).
Proof.
  intros H. rewrite keys_set. destruct (contains d k) eqn:E; [assumption|].
  apply NoDup_snoc; [assumption|].
  apply get_none_not_in_keys. unfold contains in E.
  now destruct (get d k).
Qed.

Lemma nodup_keys_setdefault d k v :
  NoDup (keys d) -> NoDup (keys (setdefault d k v)).
Proof.
  unfold setdefault. destruct (contains d k); [tauto|apply nodup_keys_set].
Qed.

Lemma nodup_keys_upd d k (f : V -> V) :
  NoDup (keys d) -> NoDup (keys (upd d k f)).
Proof.
  unfold upd. destruct (get d k); [apply nodup_keys_set|tauto].
Qed.

Lemma In_get_nodup d k v :
  NoDup (keys d) -> In (k, v) d -> get d k = Some v.
Proof.
  induction d as [|[k' v'] d IH]; simpl; [tauto|].
  intros Hnd [Heq|Hin].
  - injection Heq as -> ->. now rewrite String.eqb_refl.
  - inversion Hnd as [|a b Hnotin Hnd']; subst.
    destruct (String.eqb_spec k k') as [->|Hne].
    + exfalso. apply Hnotin. unfold keys.
      change k' with (fst (k', v)). now apply in_map.
    + now apply IH.
Qed.
End KeysFacts.

Lemma upstream_keys_unique_record g n mc d col :
  upstream_keys_unique g ->
  upstream_keys_unique (Targeted.record g n mc d col).
Proof.
  intros Hg m cols c ups Hm Hc. unfold Targeted.record in Hm.
  apply In_upd in Hm. destruct Hm as [Hm|[-> (cols0 & Hcols0 & ->)]].
  - apply In_setdefault in Hm. destruct Hm as [Hm|[_ ->]];
      [now apply (Hg m cols c)|contradiction].
  - assert (H0 : forall c0 ups0, In (c0, ups0) cols0 -> NoDup (keys ups0)).
    { intros c0 ups0 H. apply In_setdefault in Hcols0.
      destruct Hcols0 as [Hin|[_ ->]]; [now apply (Hg n cols0 c0)|].
      contradiction. }
    apply In_upd in Hc. destruct Hc as [Hc|[-> (ups0 & Hups0 & ->)]].
    + apply In_setdefault in Hc. destruct Hc as [Hc|[_ ->]];
        [now apply (H0 c)|constructor].
    + apply nodup_keys_upd, nodup_keys_setdefault.
      apply In_setdefault in Hups0. destruct Hups0 as [Hin|[_ ->]];
        [now apply (H0 mc)|constructor].
Qed.

Lemma targeted_upstream_keys_unique nodes catalog :
  upstream_keys_unique (Targeted.all_column_lineage nodes catalog).
Proof.
  unfold Targeted.all_column_lineage.
  apply fold_left_inv; [intros m cols c ups []|].
  intros g [name n] _ Hg. unfold Targeted.node_step.
  destruct (is_model (resource_type n)); [|exact Hg].
  destruct (String.eqb (compiled_sql n) ""); [exact Hg|].
  destruct (get (model_columns catalog) name) as [mcols|]; [|exact Hg].
  apply fold_left_inv; [exact Hg|].
  clear g Hg. intros g dep _ Hg. unfold Targeted.dep_step.
  destruct (get (model_columns catalog) dep) as [ucols|]; [|exact Hg].
  apply fold_left_inv; [exact Hg|].
  clear g Hg. intros g col _ Hg. unfold Targeted.col_step.
  destruct (present (compiled_sql n) col); [|exact Hg].
  apply fold_left_inv; [exact Hg|].
  clear g Hg. intros g own _ Hg. unfold Targeted.own_step.
  destruct (linked (compiled_sql n) own col); [|exact Hg].
  now apply upstream_keys_unique_record.
Qed.

Lemma targeted_tidy nodes catalog :
  tidy (Targeted.all_column_lineage nodes catalog).
Proof.
  intros m c cols ups Hm Hc.
  assert (Hkeys : NoDup (keys ups)).
  { apply (@targeted_upstream_keys_unique nodes catalog m cols c ups);
      now apply get_In. }
  split; [exact Hkeys|]. intros u l Hin.
  pose proof (targeted_no_duplicates nodes catalog m c u) as Hnd.
  unfold upstream_cols in Hnd. rewrite Hm, Hc in Hnd.
  now rewrite (@In_get_nodup _ ups u l Hkeys Hin) in Hnd.
Qed.


Lemma get_downstream_lineage_step fuel g n c v :
  get_downstream_lineage (S fuel) g n c v =
  if vmem (n, c) v then Some (Clo [], v)
  else
    option_map (fun st => (Clo (fst st), snd st))
      (foldM (down_nodes (get_downstream_lineage fuel g) n c) g
         ([], (n, c) :: v)).
Proof. reflexivity. Qed.

Lemma edges_In g m c u uc :
  In (m, c, u, uc) (edges g) ->
  exists cols ups l,
    In (m, cols) g /\ In (c, ups) cols /\ In (u, l) ups /\ In uc l.
Proof.
  unfold edges. intros H.
  apply in_flat_map in H. destruct H as ([m' cols] & Hm & H).
  apply in_flat_map in H. destruct H as ([c' ups] & Hc & H).
  apply in_flat_map in H. destruct H as ([u' l] & Hu & H).
  apply in_map_iff in H. destruct H as (uc' & [= -> -> -> ->] & Huc).
  now exists cols, ups, l.
Qed.

Section DownstreamComplete.
Variable g : graph.
Variable rec : string -> string -> vset -> option (closure * vset).
Hypothesis rec_covers :
  forall n c v t v', rec n c v = Some (t, v') -> covers (fed_by g) v n c t v'.
Variables n c : string.
Variable w0 : vset.

Let hit (dn dc : string) (e : string * list string)
    (s : odict (odict closure) * vset) : Prop :=
  fst e = n -> In c (snd e) -> contains2 (fst s) dn dc = true.

Lemma down_step_keeps dn dc st e st' :
  down_inv (fed_by g) w0 st ->
  down_step rec n c dn dc st e = Some st' ->
  down_inv (fed_by g) w0 st' /\ grows (fst st) (fst st') /\ hit dn dc e st'.
Proof.
  intros [Hcov Hkeys] Hstep. destruct e as [un l]. unfold hit.
  cbn [fst snd].
  unfold down_step in Hstep.
  destruct (String.eqb_spec un n) as [->|Hne]; simpl in Hstep.
  2:{ injection Hstep as <-. split; [now split|].
      split; [apply grows_refl|]. intros Hfst. contradiction. }
  destruct (str_in c l) eqn:Ein.
  2:{ injection Hstep as <-. split; [now split|].
      split; [apply grows_refl|].
      intros _ Hl. apply str_in_In in Hl. congruence. }
  destruct (contains2 (setdefault (fst st) dn []) dn dc) eqn:Ehave.
  { injection Hstep as <-. split; [split|split]; cbn [fst snd].
    - now apply covering_setdefault.
    - intros a b. rewrite contains2_setdefault. apply Hkeys.
    - apply grows_setdefault.
    - intros _ _. exact Ehave. }
  destruct (rec dn dc (snd st)) as [[sub w1]|] eqn:Erec; [|discriminate].
  injection Hstep as <-. cbn [fst snd].
  pose proof (rec_covers Erec) as Hsub.
  assert (Hc : contains (setdefault (fst st) dn []) dn = true)
    by apply contains_setdefault_same.
  split; [split|split]; cbn [fst snd].
  - eapply covering_add; try eassumption. now apply covering_setdefault.
  - intros a b. rewrite (@contains2_upd_set_eq _ _ dn dc sub a b Hc).
    rewrite contains2_setdefault. destruct Hsub as (Hincl & Hroot & _).
    intros H. apply orb_true_iff in H. destruct H as [H|H].
    + apply andb_true_iff in H. rewrite !String.eqb_eq in H.
      destruct H as [-> ->]. exact Hroot.
    + apply Hincl. now apply Hkeys.
  - eapply grows_trans; [apply grows_setdefault|apply grows_upd_set].
  - intros _ _. now apply contains2_upd_set.
Qed.

Lemma down_cols_keeps dn st e st' :
  down_inv (fed_by g) w0 st ->
  down_cols rec n c dn st e = Some st' ->
  down_inv (fed_by g) w0 st' /\ grows (fst st) (fst st') /\
  forall e2, In e2 (snd e) -> hit dn (fst e) e2 st'.
Proof.
  intros Hinv Hrun. destruct e as [dc ups]. unfold down_cols in Hrun. simpl.
  apply foldM_post with
    (I := fun s => down_inv (fed_by g) w0 s /\ grows (fst st) (fst s))
    (Q := fun e2 s => hit dn dc e2 s) in Hrun.
  - destruct Hrun as [[H1 H2] H3]. auto.
  - split; [assumption|apply grows_refl].
  - intros s e2 s' _ [Hs Hg] Hstep.
    destruct (down_step_keeps dn dc e2 Hs Hstep) as (Hs' & Hg' & Hhit).
    split; [split|split]; auto.
    + eapply grows_trans; eassumption.
    + intros y Hy Hfst Hsnd. apply Hg'. now apply Hy.
Qed.

Lemma down_nodes_keeps st e st' :
  down_inv (fed_by g) w0 st ->
  down_nodes rec n c st e = Some st' ->
  down_inv (fed_by g) w0 st' /\ grows (fst st) (fst st') /\
  forall e1 e2, In e1 (snd e) -> In e2 (snd e1) -> hit (fst e) (fst e1) e2 st'.
Proof.
  intros Hinv Hrun. destruct e as [dn columns]. unfold down_nodes in Hrun.
  simpl.
  apply foldM_post with
    (I := fun s => down_inv (fed_by g) w0 s /\ grows (fst st) (fst s))
    (Q := fun e1 s => forall e2, In e2 (snd e1) -> hit dn (fst e1) e2 s)
    in Hrun.
  - destruct Hrun as [[H1 H2] H3]. auto.
  - split; [assumption|apply grows_refl].
  - intros s e1 s' _ [Hs Hg] Hstep.
    destruct (down_cols_keeps dn e1 Hs Hstep) as (Hs' & Hg' & Hhit).
    split; [split|split]; auto.
    + eapply grows_trans; eassumption.
    + intros y Hy e2 H2 Hfst Hsnd. apply Hg'. now apply (Hy e2).
Qed.

Lemma down_all_keeps (l : graph) st st' :
  down_inv (fed_by g) w0 st ->
  foldM (down_nodes rec n c) l st = Some st' ->
  down_inv (fed_by g) w0 st' /\
  forall e e1 e2, In e l -> In e1 (snd e) -> In e2 (snd e1) ->
    hit (fst e) (fst e1) e2 st'.
Proof.
  intros Hinv Hrun.
  apply foldM_post with
    (I := fun s => down_inv (fed_by g) w0 s)
    (Q := fun e s => forall e1 e2, In e1 (snd e) -> In e2 (snd e1) ->
                       hit (fst e) (fst e1) e2 s)
    in Hrun.
  - destruct Hrun as [H1 H2]. split; [assumption|].
    intros e e1 e2 He. now apply H2.
  - assumption.
  - intros s e s' _ Hs Hstep.
    destruct (down_nodes_keeps e Hs Hstep) as (Hs' & Hg' & Hhit).
    split; [assumption|]. split; [assumption|].
    intros y Hy e1 e2 H1 H2 Hfst Hsnd. apply Hg'. now apply (Hy e1 e2).
Qed.
End DownstreamComplete.

Lemma downstream_covers fuel :
  forall g n c v t v',
    get_downstream_lineage fuel g n c v = Some (t, v') ->
    covers (fed_by g) v n c t v'.
Proof.
  induction fuel as [|fuel IH]; intros g n c v t v' H; [discriminate|].
  rewrite get_downstream_lineage_step in H.
  destruct (vmem (n, c) v) eqn:Ev.
  { injection H as <- <-. split; [apply incl_refl|].
    split; [now apply vmem_In|]. intros pm pc Hp Hp'. contradiction. }
  destruct (foldM (down_nodes (get_downstream_lineage fuel g) n c) g
              ([], (n, c) :: v)) as [st|] eqn:E; [|discriminate].
  simpl in H. injection H as <- <-.
  destruct (@down_all_keeps g (get_downstream_lineage fuel g) (IH g) n c
              ((n, c) :: v) g ([], (n, c) :: v) st)
    as ([[Hincl Hcov] Hkeys] & Hhit); [|exact E|].
  { split; [split|]; simpl.
    - apply incl_refl.
    - intros pm pc Hp Hp'. contradiction.
    - intros a b Hab. discriminate. }
  simpl in *.
  split; [intros k Hk; apply Hincl; now right|].
  split; [apply Hincl; now left|].
  intros pm pc Hp Hp' dn dc He.
  destruct (vkey_dec (pm, pc) (n, c)) as [[= -> ->]|Hne].
  - unfold fed_by in He. apply edges_In in He.
    destruct He as (columns & ups & l & Hdn & Hdc & Hn & Hc).
    assert (Hin : contains2 (fst st) dn dc = true)
      by (apply (Hhit (dn, columns) (dc, ups) (n, l)); auto).
    split; [now apply contains2_appearsb|now apply Hkeys].
  - apply (Hcov pm pc Hp); [|assumption].
    intros [H|H]; [now apply Hne|contradiction].
Qed.


(** * The closures are exactly what can be reached *)

Lemma list_sum_In (A : Type) (f : A -> nat) (l : list A) (x : A) :
  In x l -> f x <= list_sum (map f l).
Proof.
  induction l as [|y l IH]; simpl; [tauto|].
  intros [->|H]; [lia|]. specialize (IH H). lia.
Qed.

Lemma csize_nested d k cols k2 sub :
  In (k, cols) d -> In (k2, sub) cols -> csize sub < csize (Clo d).
Proof.
  intros H1 H2. simpl.
  pose proof (@list_sum_In _
                (fun e : string * odict closure =>
                   list_sum (map (fun e' : string * closure => csize (snd e'))
                               (snd e))) d (k, cols) H1) as Hd.
  pose proof (@list_sum_In _ (fun e' : string * closure => csize (snd e'))
                cols (k2, sub) H2) as Hc.
  simpl in Hd, Hc. lia.
Qed.

Lemma reaches_after R m c k k2 u uc :
  R m c k k2 -> reaches R k k2 u uc -> reaches R m c u uc.
Proof.
  intros H. induction 1 as [u uc H1|p pc u uc _ IH H1].
  - eapply reaches_more; [apply reaches_step, H|exact H1].
  - eapply reaches_more; eassumption.
Qed.

Lemma reaches_mono (R R' : string -> string -> string -> string -> Prop)
    m c u uc :
  (forall a b x y, R a b x y -> R' a b x y) ->
  reaches R m c u uc -> reaches R' m c u uc.
Proof.
  intros H. induction 1 as [u uc H1|p pc u uc _ IH H1].
  - apply reaches_step. now apply H.
  - eapply reaches_more; [exact IH|now apply H].
Qed.

Lemma within_reaches R n :
  forall t, csize t <= n ->
  forall m c, within R m c t ->
  forall u uc, appearsb u uc t = true -> reaches R m c u uc.
Proof.
  induction n as [|n IH]; intros [d] Hsize m c Hw u uc Ha;
    [simpl in Hsize; lia|].
  inversion Hw as [m' c' d' Hall]; subst.
  apply appearsb_iff in Ha.
  destruct Ha as (k & cols & k2 & sub & Hin & Hin2 & Hcase).
  destruct (Hall k cols k2 sub Hin Hin2) as [HR Hsub].
  destruct Hcase as [[-> ->]|Hdeep]; [now apply reaches_step|].
  apply reaches_after with (k := k) (k2 := k2); [exact HR|].
  apply (IH sub); [|exact Hsub|exact Hdeep].
  pose proof (@csize_nested d k cols k2 sub Hin Hin2). lia.
Qed.

(** X15.  The downstream closure is exactly what can be reached, on every
    graph: a pair appears in the closure that the traversal from a root
    returns, when started with an empty visited set, if and only if it
    can be reached from the root by following entries downstream over one
    hop or more; cycles neither hide a pair nor add one. *)
Theorem downstream_closure_exact fuel g m c t v' :
  get_downstream_lineage fuel g m c [] = Some (t, v') ->
  forall dm dc,
    appearsb dm dc t = true <-> reaches (fed_by g) m c dm dc.
Proof.
  intros Hrun dm dc. split.
  - apply (@within_reaches _ (csize t) t (le_n _)).
    eapply downstream_within. exact Hrun.
  - intros Hreach. apply downstream_covers in Hrun.
    now destruct (@reaches_covered _ m c t v' Hrun dm dc Hreach).
Qed.

Lemma downstream_closure_exact_witness :
  appearsb "A" "x" (Clo [("A", [("x", Clo [("B", [("y", Clo [])])])])])
  = true <->
  reaches (fed_by Scenario.cyclic_graph) "B" "y" "A" "x".
Proof.
  apply (@downstream_closure_exact 4 Scenario.cyclic_graph "B" "y"
           (Clo [("A", [("x", Clo [("B", [("y", Clo [])])])])])
           [("A", "x"); ("B", "y")]).
  vm_compute. reflexivity.
Defined.

Lemma model_keys_unique_record g n mc d col :
  model_keys_unique g -> model_keys_unique (Targeted.record g n mc d col).
Proof.
  intros [Hg Hcols]. unfold Targeted.record. split.
  - now apply nodup_keys_upd, nodup_keys_setdefault.
  - intros m cols Hm. apply In_upd in Hm.
    destruct Hm as [Hm|[-> (cols0 & Hcols0 & ->)]].
    + apply In_setdefault in Hm. destruct Hm as [Hm|[_ ->]];
        [now apply (Hcols m)|constructor].
    + apply nodup_keys_upd, nodup_keys_setdefault.
      apply In_setdefault in Hcols0. destruct Hcols0 as [Hin|[_ ->]];
        [now apply (Hcols n)|constructor].
Qed.

Lemma targeted_model_keys_unique nodes catalog :
  model_keys_unique (Targeted.all_column_lineage nodes catalog).
Proof.
  unfold Targeted.all_column_lineage.
  apply fold_left_inv.
  { split; [constructor|intros m cols []]. }
  intros g [name n] _ Hg. unfold Targeted.node_step.
  destruct (is_model (resource_type n)); [|exact Hg].
  destruct (String.eqb (compiled_sql n) ""); [exact Hg|].
  destruct (get (model_columns catalog) name) as [mcols|]; [|exact Hg].
  apply fold_left_inv; [exact Hg|].
  clear g Hg. intros g dep _ Hg. unfold Targeted.dep_step.
  destruct (get (model_columns catalog) dep) as [ucols|]; [|exact Hg].
  apply fold_left_inv; [exact Hg|].
  clear g Hg. intros g col _ Hg. unfold Targeted.col_step.
  destruct (present (compiled_sql n) col); [|exact Hg].
  apply fold_left_inv; [exact Hg|].
  clear g Hg. intros g own _ Hg. unfold Targeted.own_step.
  destruct (linked (compiled_sql n) own col); [|exact Hg].
  now apply model_keys_unique_record.
Qed.

Lemma targeted_feeds_edge nodes catalog m c u uc :
  feeds (Targeted.all_column_lineage nodes catalog) m c u uc ->
  edge (Targeted.all_column_lineage nodes catalog) m c u uc.
Proof.
  intros H. apply edges_In in H.
  destruct H as (cols & ups & l & Hm & Hc & Hu & Huc).
  destruct (targeted_model_keys_unique nodes catalog) as [Hg Hcols].
  pose proof (targeted_upstream_keys_unique nodes catalog m cols c ups Hm Hc)
    as Hups.
  unfold edge, upstream_cols.
  rewrite (@In_get_nodup _ _ m cols Hg Hm).
  rewrite (@In_get_nodup _ _ c ups (Hcols m cols Hm) Hc).
  now rewrite (@In_get_nodup _ _ u l Hups Hu).
Qed.

(** X16.  The upstream closure is exactly what can be reached, in the
    graph of the targeted mode: a pair appears in the closure that the
    traversal from a root returns, when started with an empty visited
    set, if and only if it can be reached from the root by following
    entries upstream over one hop or more. *)
Theorem upstream_closure_exact fuel nodes catalog m c t v' :
  let g := Targeted.all_column_lineage nodes catalog in
  get_upstream_lineage fuel g m c [] = Some (t, v') ->
  forall u uc, appearsb u uc t = true <-> reaches (edge g) m c u uc.
Proof.
  intros g Hrun u uc. split.
  - intros Ha. apply reaches_mono with (R := feeds g);
      [intros a b x y; apply targeted_feeds_edge|].
    apply (@within_reaches _ (csize t) t (le_n _)); [|exact Ha].
    eapply upstream_within. exact Hrun.
  - intros Hreach.
    apply (@upstream_covers fuel g (targeted_tidy nodes catalog)) in Hrun.
    now destruct (@reaches_covered _ m c t v' Hrun u uc Hreach).
Qed.

Lemma upstream_closure_exact_witness :
  appearsb "proj.v" "y"
    (Clo [("proj.u", [("x", Clo [("proj.v", [("y", Clo [])])])])])
  = true <->
  reaches (edge (Targeted.all_column_lineage Scenario.chain_nodes
                   Scenario.chain_catalog)) "proj.t" "c" "proj.v" "y".
Proof.
  apply (@upstream_closure_exact 3 Scenario.chain_nodes
           Scenario.chain_catalog "proj.t" "c"
           (Clo [("proj.u", [("x", Clo [("proj.v", [("y", Clo [])])])])])
           [("proj.v", "y"); ("proj.u", "x"); ("proj.t", "c")]).
  vm_compute. reflexivity.
Defined.

(** * Flattening a closure of one hop *)

Lemma for_each_rows (B : Type) (body : B -> W unit) (out : B -> list row)
    (l : list B) :
  (forall x, In x l -> forall rows, body x rows = (rows ++ out x, Ok tt)) ->
  forall rows, for_each l body rows = (rows ++ flat_map out l, Ok tt).
Proof.
  induction l as [|x l IH]; simpl; intros H rows.
  - unfold ret. now rewrite app_nil_r.
  - unfold bind. rewrite (H x (or_introl eq_refl)).
    rewrite IH; [|intros y Hy; apply H; now right].
    now rewrite app_assoc.
Qed.

Lemma In_keys (V : Type) (d : odict V) k :
  In k (keys d) -> exists v, In (k, v) d.
Proof.
  unfold keys. intros H. apply in_map_iff in H.
  destruct H as ([k' v] & <- & H). now exists v.
Qed.

(** X9.  Flattening works on a closure of one hop: when the closure
    stored for a column of a model holds direct relatives only (each with
    an empty closure of its own), [flatten] raises nothing and adds one
    row per relative, in the order of the closure. *)
Theorem flatten_one_hop fuel lin model column cols related rows :
  get lin model = Some cols ->
  get cols column = Some related ->
  NoDup (keys (closure_dict related)) ->
  (forall rm rcols, In (rm, rcols) (closure_dict related) ->
     NoDup (keys rcols) /\
     forall rc sub, In (rc, sub) rcols -> truthy sub = false) ->
  flatten (S fuel) lin model column related rows
  = (rows ++ relative_rows model column related, Ok tt).
Proof.
  intros Hmodel Hcolumn Hkeys Hflat. simpl. unfold relative_rows.
  apply for_each_rows. intros [rm rcols] Hrm rows0.
  destruct (Hflat rm rcols Hrm) as [Hrkeys Hleaf].
  apply for_each_rows with
    (out := fun rc => [[Str (last_segment model); Str column;
                        Str (last_segment rm); Str rc]]).
  intros rc Hrc rows1. apply In_keys in Hrc. destruct Hrc as [sub Hsub].
  unfold bind, writerow, lookup.
  rewrite Hmodel, Hcolumn.
  rewrite (@In_get_nodup _ _ rm rcols Hkeys Hrm).
  rewrite (@In_get_nodup _ _ rc sub Hrkeys Hsub).
  rewrite (Hleaf rc sub Hsub). reflexivity.
Qed.

Lemma flatten_one_hop_witness :
  flatten 1
    [("order_summary",
      [("total",
        Clo [("raw_orders", [("id", Clo []); ("amount", Clo [])])])])]
    "order_summary" "total"
    (Clo [("raw_orders", [("id", Clo []); ("amount", Clo [])])]) []
  = ([] ++ relative_rows "order_summary" "total"
             (Clo [("raw_orders", [("id", Clo []); ("amount", Clo [])])]),
     Ok tt).
Proof.
  apply (@flatten_one_hop 0
           [("order_summary",
             [("total",
               Clo [("raw_orders", [("id", Clo []); ("amount", Clo [])])])])]
           "order_summary" "total"
           [("total",
             Clo [("raw_orders", [("id", Clo []); ("amount", Clo [])])])]
           (Clo [("raw_orders", [("id", Clo []); ("amount", Clo [])])]) []).
  - reflexivity.
  - reflexivity.
  - simpl. repeat constructor. simpl. tauto.
  - intros rm rcols [H|[]]. injection H as <- <-. split.
    + simpl. repeat constructor; simpl; intuition discriminate.
    + intros rc sub [H|[H|[]]]; injection H as <- <-; reflexivity.
Defined.
